(** * Dyson ring renderer: geometry builder, transform pipeline and
      depth-sorted compositor of [main.py]

    A shallow embedding of the pure core of [main.py].

    Conventions of the embedding:
    - a Python [float] / [np.float64] is a real number ([R]); every theorem
      below is therefore a statement of exact real arithmetic;
    - a Python [int] used as an index is a [Z], and indexing follows Python:
      a negative index counts from the end, an index outside
      [-len, len) raises [IndexError];
    - a computation that may raise returns an [option]; [None] is the
      raised exception;
    - an [np.ndarray] of shape (n, 3) is a [list vec3], one of shape (3, 3)
      a [mat3] (three rows);
    - the random draws of [np.random.rand] are explicit arguments. *)

From Stdlib Require Import Reals Lra Lia ZArith List Bool Permutation Sorted.
Import ListNotations.

Open Scope R_scope.

(** ** Exceptions as [option] *)

Definition bind {A B : Type} (m : option A) (k : A -> option B) : option B :=
  match m with
  | Some a => k a
  | None => None
  end.

Notation "x <- m ;; k" := (bind m (fun x => k))
  (at level 61, m at next level, right associativity).

Fixpoint mapM {A B : Type} (f : A -> option B) (l : list A) : option (list B) :=
  match l with
  | [] => Some []
  | a :: l' =>
      b <- f a ;;
      bs <- mapM f l' ;;
      Some (b :: bs)
  end.

(** [l[i]] for a Python list or a 1-d array. *)
Definition py_index {A : Type} (l : list A) (i : Z) : option A :=
  let n := Z.of_nat (length l) in
  if (0 <=? i)%Z then nth_error l (Z.to_nat i)
  else if (- n <=? i)%Z then nth_error l (Z.to_nat (n + i))
  else None.

(** ** Config *)

Definition WIDTH : R := 1200.
Definition HEIGHT : R := 900.
Definition FPS : Z := 60.

Definition radians (deg : R) : R := deg * (PI / 180).

Definition N_SEGMENTS : nat := 12.
Definition ARC_SPAN : R := radians 360.
Definition ARC_START : R := radians (-85).
Definition R_INNER : R := 45 / 10.
Definition R_OUTER : R := 75 / 10.
Definition SEG_HEIGHT : R := 25 / 10.
Definition ANGLE_SPAN : R := (ARC_SPAN / INR N_SEGMENTS) * (90 / 100).

Definition SUBDIVISIONS : Z := 6.
Definition BEVEL_SIZE : R := 15 / 100.
Definition LIGHTS_PER_SEGMENT : nat := 200.

Definition SCALE : R := 525 / 10.
Definition TILT : R := radians 38.
Definition INITIAL_YAW : R := radians 42.
Definition BASE_AZIM : R := radians 45.
Definition ROT_SPEED : R := 2 * PI / 600.

Definition color : Type := (Z * Z * Z)%type.
Definition FACE_EDGE_FRONT : color := (0, 255, 0)%Z.
Definition FACE_EDGE_BACK : color := (0, 200, 255)%Z.
Definition DOUBLE_FACE_Z_OFFSET : R := 1 / 10000.

(** ** Vectors and 3x3 matrices *)

Record vec3 : Type := mkVec { vx : R; vy : R; vz : R }.

(** A 3x3 array, by rows. *)
Record mat3 : Type := mkMat { row0 : vec3; row1 : vec3; row2 : vec3 }.

Definition dot (a b : vec3) : R := vx a * vx b + vy a * vy b + vz a * vz b.

Definition col0 (m : mat3) : vec3 := mkVec (vx (row0 m)) (vx (row1 m)) (vx (row2 m)).
Definition col1 (m : mat3) : vec3 := mkVec (vy (row0 m)) (vy (row1 m)) (vy (row2 m)).
Definition col2 (m : mat3) : vec3 := mkVec (vz (row0 m)) (vz (row1 m)) (vz (row2 m)).

(** [m.T] *)
Definition transpose (m : mat3) : mat3 := mkMat (col0 m) (col1 m) (col2 m).

(** [v @ m] for a row vector [v]. *)
Definition vec_matmul (v : vec3) (m : mat3) : vec3 :=
  mkVec (dot v (col0 m)) (dot v (col1 m)) (dot v (col2 m)).

(** [a @ b] for two 3x3 arrays. *)
Definition matmul (a b : mat3) : mat3 :=
  mkMat (vec_matmul (row0 a) b) (vec_matmul (row1 a) b) (vec_matmul (row2 a) b).

(** [pts @ m] for an (n, 3) array [pts]. *)
Definition points_matmul (pts : list vec3) (m : mat3) : list vec3 :=
  map (fun v => vec_matmul v m) pts.

Definition identity3 : mat3 :=
  mkMat (mkVec 1 0 0) (mkVec 0 1 0) (mkVec 0 0 1).

Definition det3 (m : mat3) : R :=
  vx (row0 m) * (vy (row1 m) * vz (row2 m) - vz (row1 m) * vy (row2 m))
  - vy (row0 m) * (vx (row1 m) * vz (row2 m) - vz (row1 m) * vx (row2 m))
  + vz (row0 m) * (vx (row1 m) * vy (row2 m) - vy (row1 m) * vx (row2 m)).

(** [k * p], [p * k] and [p + q] on rows of an array. *)
Definition vscale (k : R) (p : vec3) : vec3 := mkVec (k * vx p) (k * vy p) (k * vz p).
Definition vtimes (p : vec3) (k : R) : vec3 := mkVec (vx p * k) (vy p * k) (vz p * k).
Definition vadd (p q : vec3) : vec3 := mkVec (vx p + vx q) (vy p + vy q) (vz p + vz q).

(** ** Rotation matrices *)

Definition rotation_matrix_z (theta : R) : mat3 :=
  let c := cos theta in
  let s := sin theta in
  mkMat (mkVec c (- s) 0) (mkVec s c 0) (mkVec 0 0 1).

Definition rotation_matrix_x (theta : R) : mat3 :=
  let c := cos theta in
  let s := sin theta in
  mkMat (mkVec 1 0 0) (mkVec 0 c (- s)) (mkVec 0 s c).

Definition rotation_matrix_y (theta : R) : mat3 :=
  let c := cos theta in
  let s := sin theta in
  mkMat (mkVec c 0 s) (mkVec 0 1 0) (mkVec (- s) 0 c).

(** The matrix of a frame, [main]:
    [rotation_matrix_y(view_yaw) @ rotation_matrix_x(view_pitch) @ rotation_matrix_z(theta)]. *)
Definition compose_rotation (yaw pitch spin : R) : mat3 :=
  matmul (matmul (rotation_matrix_y yaw) (rotation_matrix_x pitch))
         (rotation_matrix_z spin).

(** [theta = frame * ROT_SPEED + BASE_AZIM] *)
Definition frame_spin (frame : nat) : R := INR frame * ROT_SPEED + BASE_AZIM.

Definition frame_matrix (frame : nat) (view_yaw view_pitch : R) : mat3 :=
  compose_rotation view_yaw view_pitch (frame_spin frame).

(** ** Projection *)

(** [project_points]: the four returned arrays. *)
Definition project_points (points : list vec3)
  : list R * list R * list bool * list R :=
  if (length points =? 0)%nat then ([], [], [], [])
  else
    let scaled := map (fun p => vtimes p SCALE) points in
    (map (fun p => WIDTH * (5 / 10) + vx p) scaled,
     map (fun p => HEIGHT * (5 / 10) - vy p) scaled,
     map (fun _ => true) scaled,
     map (fun _ => 1) scaled).

(** ** Geometry builder *)

(** A face: its vertex indices and its edge-draw flags. *)
Definition face : Type := (list Z * list bool)%type.

(** [range(n)] and [enumerate(l)]. *)
Definition range (n : nat) : list Z := map Z.of_nat (seq 0 n).

Definition enumerate {A : Type} (l : list A) : list (Z * A) :=
  combine (range (length l)) l.

(** [np.linspace(start, stop, num)] (endpoint included): [num] evenly spaced
    samples, the last one set to [stop]; a negative [num] raises
    [ValueError]. *)
Definition linspace (start stop : R) (num : Z) : option (list R) :=
  if (num <? 0)%Z then None
  else
    let div := (num - 1)%Z in
    let delta := stop - start in
    Some (map (fun i : Z =>
                 if ((1 <? num) && (i =? num - 1))%Z then stop
                 else if (0 <? div)%Z then IZR i * (delta / IZR div) + start
                 else IZR i * delta + start)
              (range (Z.to_nat num))).

Definition points_per_ring : Z := 4.

(** The four vertices appended for the ring at angle [theta]; [rs] and [zs]
    are the four-entry lists of the source. *)
Definition ring_verts (rs zs : list R) (theta : R) : list vec3 :=
  let c := cos theta in
  let s := sin theta in
  map (fun j : Z =>
         let r := nth (Z.to_nat j) rs 0 in
         mkVec (r * c) (r * s) (nth (Z.to_nat j) zs 0))
      (range (Z.to_nat points_per_ring)).

(** The four side faces appended at ring [i > 0]. *)
Definition ring_faces (n_rings i : Z) : list face :=
  let base := (i * points_per_ring)%Z in
  let prev_base := ((i - 1) * points_per_ring)%Z in
  map (fun j : Z =>
         let next_j := ((j + 1) mod points_per_ring)%Z in
         let draw_flags := [true; (i =? n_rings - 1)%Z; true; (i =? 1)%Z] in
         ([prev_base + j; base + j; base + next_j; prev_base + next_j]%Z,
          draw_flags))
      (range (Z.to_nat points_per_ring)).

(** One iteration of [for i, theta in enumerate(theta_steps)], on the state
    [(verts, faces_with_flags)]. *)
Definition segment_step (rs zs : list R) (n_rings : Z)
    (st : list vec3 * list face) (it : Z * R) : list vec3 * list face :=
  let '(verts, faces_with_flags) := st in
  let '(i, theta) := it in
  let verts' := verts ++ ring_verts rs zs theta in
  if (0 <? i)%Z then (verts', faces_with_flags ++ ring_faces n_rings i)
  else (verts', faces_with_flags).

Definition make_curved_beveled_segment
    (angle_center angle_span r_inner r_outer height : R)
    (subdivs : Z) (bevel : R)
  : option (list vec3 * list (Z * Z) * list face) :=
  let half_span := angle_span * (5 / 10) in
  let rs := [r_inner; r_outer; r_outer; r_inner] in
  let zs := [- height / 2; - height / 2; height / 2; height / 2] in
  theta_steps <- linspace (angle_center - half_span) (angle_center + half_span)
                          (subdivs + 1) ;;
  let n_rings := Z.of_nat (length theta_steps) in
  let '(verts, faces_with_flags) :=
    fold_left (segment_step rs zs n_rings) (enumerate theta_steps) ([], []) in
  let faces_with_flags :=
    faces_with_flags ++ [([0; 1; 2; 3]%Z, repeat true 4)] in
  let last_base := ((n_rings - 1) * points_per_ring)%Z in
  let faces_with_flags :=
    faces_with_flags
      ++ [([last_base + 3; last_base + 2; last_base + 1; last_base]%Z,
           repeat true 4)] in
  Some (verts, [], faces_with_flags).

(** ** Light scatterer *)

(** A light: sample point, size, colour. *)
Definition light : Type := (vec3 * R * color)%type.

(** [sample_point_on_quad]; [u] and [v] are the two draws of
    [np.random.rand(2)], used only on the four-index branch. *)
Definition sample_point_on_quad (verts : list vec3) (face : list Z) (u v : R)
  : option vec3 :=
  if negb (length face =? 4)%nat then
    i0 <- py_index face 0 ;;
    py_index verts i0
  else
    corners <- mapM (py_index verts) face ;;
    match corners with
    | [a; b; c; d] =>
        Some (vadd (vadd (vadd (vscale ((1 - u) * (1 - v)) a)
                               (vscale (u * (1 - v)) b))
                         (vscale (u * v) c))
                   (vscale ((1 - u) * v) d))
    | _ => None
    end.

(** The random draws consumed for one light: the face pick of
    [random.randrange], the two parameters of [np.random.rand(2)], the coin
    of [random.random()], the fraction behind [random.uniform] and the three
    [random.randint] results. *)
Record light_draw : Type := mkDraw {
  d_pick : nat;
  d_u : R;
  d_v : R;
  d_coin : R;
  d_frac : R;
  d_color : color
}.

(** [random.uniform(a, b)] from its underlying fraction. *)
Definition uniform (a b frac : R) : R := a + (b - a) * frac.

(** [generate_lights_for_face], one draw per requested light. *)
Definition generate_lights_for_face (verts : list vec3) (face_indices : list Z)
    (draws : list light_draw) : option (list light) :=
  mapM (fun d =>
          pt <- sample_point_on_quad verts face_indices (d_u d) (d_v d) ;;
          let size :=
            if Rlt_dec (d_coin d) (1 / 10)
            then uniform 3 8 (d_frac d)
            else uniform (15 / 100) (25 / 10) (d_frac d) in
          Some (pt, size, d_color d))
       draws.

(** [l[i].extend(extra)] on a list of lists. *)
Fixpoint extend_at {A : Type} (l : list (list A)) (i : nat) (extra : list A)
  : option (list (list A)) :=
  match l, i with
  | [], _ => None
  | x :: l', O => Some ((x ++ extra) :: l')
  | x :: l', S i' =>
      r <- extend_at l' i' extra ;;
      Some (x :: r)
  end.

(** A segment of the scene: vertices, edges, faces, lights per face. *)
Definition segment : Type :=
  (list vec3 * list (Z * Z) * list face * list (list light))%type.

(** The light loop of [main] for one segment:
    [f_idx = random.randrange(len(f))], then
    [face_lights[f_idx].extend(generate_lights_for_face(v, f[f_idx][0], 1))]. *)
Definition scatter_step (v : list vec3) (f : list face)
    (acc : option (list (list light))) (d : light_draw)
  : option (list (list light)) :=
  face_lights <- acc ;;
  let f_idx := (d_pick d mod length f)%nat in
  fc <- nth_error f f_idx ;;
  ls <- generate_lights_for_face v (fst fc) [d] ;;
  extend_at face_lights f_idx ls.

Definition scatter_lights (v : list vec3) (f : list face)
    (draws : list light_draw) : option (list (list light)) :=
  let face_lights := map (fun _ => []) f in
  if ((0 <? length f) && (0 <? LIGHTS_PER_SEGMENT))%nat
  then fold_left (scatter_step v f) draws (Some face_lights)
  else Some face_lights.

(** Segment [i] of [main]; [rng i k] is the [k]-th light draw of segment [i]. *)
Definition build_segment (rng : nat -> nat -> light_draw) (i : nat)
  : option segment :=
  let step := ARC_SPAN / INR N_SEGMENTS in
  vef <- make_curved_beveled_segment
           (ARC_START + step * (INR i + 5 / 10)) ANGLE_SPAN
           R_INNER R_OUTER SEG_HEIGHT SUBDIVISIONS BEVEL_SIZE ;;
  let '(v, e, f) := vef in
  face_lights <- scatter_lights v f (map (rng i) (seq 0 LIGHTS_PER_SEGMENT)) ;;
  Some (v, e, f, face_lights).

Definition build_segments (rng : nat -> nat -> light_draw) : option (list segment) :=
  mapM (build_segment rng) (seq 0 N_SEGMENTS).

(** ** Back faces *)

(** [edge_flags[:-1]] is [removelast], [edge_flags[-1]] is [last]. *)
Definition reverse_edge_flags (edge_flags : list bool) : list bool :=
  if (length edge_flags <=? 1)%nat then edge_flags
  else rev (removelast edge_flags) ++ [last edge_flags false].

(** ** Depth-sorted compositor *)

(** A projected light: screen x, screen y, size, colour. *)
Definition proj_light : Type := (R * R * R * color)%type.

Inductive item_type : Type := ItemFace.

(** An entry of [render_list]:
    [(depth, 'face', points, edge_color, edge_flags, lights, is_back)]. *)
Record RenderItem : Type := mkItem {
  depth_key : R;
  item_kind : item_type;
  item_points : list (R * R);
  item_edge_color : color;
  item_edge_flags : list bool;
  item_lights : list proj_light;
  is_back : bool
}.

(** [all(mask_v[idx] for idx in face_indices)]: stops at the first false
    entry, raises on a bad index met before that. *)
Fixpoint all_visible (mask_v : list bool) (face_indices : list Z) : option bool :=
  match face_indices with
  | [] => Some true
  | idx :: rest =>
      m <- py_index mask_v idx ;;
      if m then all_visible mask_v rest else Some false
  end.

(** [sum(...) / len(face_indices)], [ZeroDivisionError] on an empty face. *)
Definition average (zs : list R) : option R :=
  if (length zs =? 0)%nat then None
  else Some (fold_left Rplus zs 0 / INR (length zs)).

(** The projected lights of one face. *)
Definition project_lights (mat : mat3) (face_lights : list light) : list proj_light :=
  match face_lights with
  | [] => []
  | _ =>
      let pts_world := points_matmul (map (fun l => fst (fst l)) face_lights)
                                     (transpose mat) in
      let '(lx, ly, _, _) := project_points pts_world in
      map (fun xyl : R * R * light =>
             let '(x, y, l) := xyl in (x, y, snd (fst l), snd l))
          (combine (combine lx ly) face_lights)
  end.

(** The body of [for i, (face_indices, edge_flags) in enumerate(faces_local)]:
    the items appended to [render_list] and the lights appended to
    [light_draw_queue]. *)
Definition face_items (mat : mat3) (v_world : list vec3) (x2d y2d : list R)
    (mask_v : list bool) (lights_local : list (list light))
    (i : nat) (fc : face) : option (list RenderItem * list proj_light) :=
  let '(face_indices, edge_flags) := fc in
  vis <- all_visible mask_v face_indices ;;
  if negb vis then Some ([], [])
  else
    points_2d <- mapM (fun idx =>
                         x <- py_index x2d idx ;;
                         y <- py_index y2d idx ;;
                         Some (x, y)) face_indices ;;
    zs <- mapM (fun idx => p <- py_index v_world idx ;; Some (vz p)) face_indices ;;
    avg_z <- average zs ;;
    ll <- nth_error lights_local i ;;
    let proj_lights := project_lights mat ll in
    let edge_flags_front := edge_flags in
    let back_points := rev points_2d in
    let back_edge_flags := reverse_edge_flags edge_flags_front in
    Some ([mkItem avg_z ItemFace points_2d FACE_EDGE_FRONT edge_flags_front
                  proj_lights false;
           mkItem (avg_z - DOUBLE_FACE_Z_OFFSET) ItemFace back_points
                  FACE_EDGE_BACK back_edge_flags proj_lights true],
          proj_lights).

(** Threading [(render_list, light_draw_queue)] through a loop whose body
    appends to both. *)
Definition frame_state : Type := (list RenderItem * list proj_light)%type.

Definition append_state (st : frame_state) (out : frame_state) : frame_state :=
  (fst st ++ fst out, snd st ++ snd out).

Fixpoint loop_faces (body : nat -> face -> option frame_state)
    (i : nat) (faces_local : list face) (st : frame_state) : option frame_state :=
  match faces_local with
  | [] => Some st
  | fc :: rest =>
      out <- body i fc ;;
      loop_faces body (S i) rest (append_state st out)
  end.

(** The body of [for verts_local, edges, faces_local, lights_local in segments]. *)
Definition segment_items (mat : mat3) (s : segment) (st : frame_state)
  : option frame_state :=
  let '(verts_local, edges, faces_local, lights_local) := s in
  let v_world := points_matmul verts_local (transpose mat) in
  let '(x2d, y2d, mask_v, _) := project_points v_world in
  if (length x2d =? 0)%nat then Some st
  else loop_faces (face_items mat v_world x2d y2d mask_v lights_local)
                  0 faces_local st.

Fixpoint loop_segments (mat : mat3) (segments : list segment) (st : frame_state)
  : option frame_state :=
  match segments with
  | [] => Some st
  | s :: rest =>
      st' <- segment_items mat s st ;;
      loop_segments mat rest st'
  end.

(** [render_list.sort(key=lambda x: x[0])]: a stable ascending sort on the
    depth key.  Insertion from the right, placing an item before the first
    one whose key is not smaller, is stable. *)
Fixpoint insert_by_depth (x : RenderItem) (l : list RenderItem) : list RenderItem :=
  match l with
  | [] => [x]
  | y :: l' =>
      if Rle_dec (depth_key x) (depth_key y) then x :: l
      else y :: insert_by_depth x l'
  end.

Definition sort_by_depth (l : list RenderItem) : list RenderItem :=
  fold_right insert_by_depth [] l.

(** The render list and light queue of one frame, before and after the sort. *)
Definition build_render_list (mat : mat3) (segments : list segment)
  : option frame_state :=
  loop_segments mat segments ([], []).

Definition render_frame (mat : mat3) (segments : list segment)
  : option frame_state :=
  st <- build_render_list mat segments ;;
  Some (sort_by_depth (fst st), snd st).

(** The edges stroked when an item is painted:
    [for k in range(min(len(points), len(edge_flags)))], edge [k] joins
    [points[k]] and [points[(k + 1) % len(points)]] and is drawn when
    [edge_flags[k]]. *)
Definition stroked_edges {A : Type} (points : list A) (edge_flags : list bool)
  : list (A * A) :=
  flat_map (fun k =>
              match nth_error edge_flags k,
                    nth_error points k,
                    nth_error points ((k + 1) mod length points) with
              | Some true, Some p, Some q => [(p, q)]
              | _, _, _ => []
              end)
           (seq 0 (Nat.min (length points) (length edge_flags))).

(** Edge [k] of a polygon, as the pair of its end points. *)
Definition polygon_edge {A : Type} (points : list A) (k : nat) : option (A * A) :=
  p <- nth_error points k ;;
  q <- nth_error points ((k + 1) mod length points) ;;
  Some (p, q).

(** Two edges join the same unordered pair of corners. *)
Definition same_edge {A : Type} (e1 e2 : A * A) : Prop :=
  e1 = e2 \/ e1 = (snd e2, fst e2).

(** ** Closed forms of the builder's output, used to state its properties *)

(** The faces the ring loop appends at index [i]. *)
Definition faces_at (n_rings i : Z) : list face :=
  if (0 <? i)%Z then ring_faces n_rings i else [].

(** The two end caps for [n_rings] rings. *)
Definition start_cap : face := ([0; 1; 2; 3]%Z, [true; true; true; true]).

Definition end_cap (n_rings : Z) : face :=
  let last_base := ((n_rings - 1) * 4)%Z in
  ([last_base + 3; last_base + 2; last_base + 1; last_base]%Z,
   [true; true; true; true]).

(** The side faces of all ring steps [1 .. n]. *)
Definition side_faces (n : nat) : list face :=
  flat_map (ring_faces (Z.of_nat (S n))) (map Z.of_nat (seq 1 n)).

(** ** Notions used to state the properties *)

(** [m @ m.T] is the identity and [det(m) = 1]. *)
Definition orthonormal (m : mat3) : Prop :=
  matmul m (transpose m) = identity3 /\ det3 m = 1.

(** [p] is a convex combination of the four corners. *)
Definition in_convex_hull4 (p a b c d : vec3) : Prop :=
  exists wa wb wc wd : R,
    0 <= wa /\ 0 <= wb /\ 0 <= wc /\ 0 <= wd /\
    wa + wb + wc + wd = 1 /\
    p = vadd (vadd (vadd (vscale wa a) (vscale wb b)) (vscale wc c)) (vscale wd d).

(** The projection of a non-empty array, column by column. *)
Definition screen_xs (pts : list vec3) : list R :=
  map (fun q => WIDTH / 2 + SCALE * vx q) pts.

Definition screen_ys (pts : list vec3) : list R :=
  map (fun q => HEIGHT / 2 - SCALE * vy q) pts.

Definition all_true (pts : list vec3) : list bool := map (fun _ => true) pts.

(** The transformed Z coordinate of a vertex: column 2 of
    [verts_local @ mat.T]. *)
Definition world_z (mat : mat3) (p : vec3) : R := vz (vec_matmul p (transpose mat)).

(** [front] and [back] are the two render items of the face [fc] of a
    segment with vertex array [verts]. *)
Definition is_face_pair (mat : mat3) (verts : list vec3) (fc : face)
    (front back : RenderItem) : Prop :=
  exists (ia ib ic id : Z) (a b c d : vec3),
    fst fc = [ia; ib; ic; id] /\
    py_index verts ia = Some a /\ py_index verts ib = Some b /\
    py_index verts ic = Some c /\ py_index verts id = Some d /\
    depth_key front
    = (world_z mat a + world_z mat b + world_z mat c + world_z mat d) / 4 /\
    depth_key back = depth_key front - 1 / 10000 /\
    item_kind front = ItemFace /\ item_kind back = ItemFace /\
    is_back front = false /\ is_back back = true /\
    item_points back = rev (item_points front) /\
    item_edge_flags front = snd fc /\
    item_edge_flags back = reverse_edge_flags (snd fc) /\
    item_lights back = item_lights front.

Definition scene_pair (mat : mat3) (x : list vec3 * face)
    (front back : RenderItem) : Prop :=
  is_face_pair mat (fst x) (snd x) front back.

(** A render list made of one front item followed by its back item per
    entry of [xs], in order. *)
Inductive paired {X : Type} (P : X -> RenderItem -> RenderItem -> Prop)
  : list X -> list RenderItem -> Prop :=
| paired_nil : paired P [] []
| paired_cons x xs front back rl :
    P x front back -> paired P xs rl ->
    paired P (x :: xs) (front :: back :: rl).

(** All faces of a scene, each with the vertex array of its segment. *)
Definition segment_faces (s : segment) : list (list vec3 * face) :=
  let '(verts, _, faces, _) := s in map (fun fc => (verts, fc)) faces.

Definition scene_faces (segments : list segment) : list (list vec3 * face) :=
  flat_map segment_faces segments.

Definition total_face_count (segments : list segment) : nat :=
  length (scene_faces segments).

(** A face with four indices, each a position of the vertex array. *)
Definition face_ok (n_verts : nat) (fc : face) : Prop :=
  length (fst fc) = 4%nat /\
  Forall (fun idx => (0 <= idx < Z.of_nat n_verts)%Z) (fst fc).

(** A segment as [main] builds them: vertices present, quad faces over valid
    indices, one light list per face. *)
Definition segment_ok (s : segment) : Prop :=
  let '(verts, _, faces, lights) := s in
  verts <> [] /\
  Forall (face_ok (length verts)) faces /\
  length lights = length faces.

Definition non_decreasing (l : list RenderItem) : Prop :=
  StronglySorted (fun x y => depth_key x <= depth_key y) l.


(** ** Painting *)

(** [int(x)] on a float: truncation towards zero. *)
Definition py_int (x : R) : Z :=
  if Rle_dec 0 x then Zfloor x else Zceil x.

(** [min(l)] and [max(l)] of a non-empty list. *)
Definition list_min (l : list R) : R := fold_left Rmin (tl l) (hd 0 l).
Definition list_max (l : list R) : R := fold_left Rmax (tl l) (hd 0 l).

Definition rgba : Type := (Z * Z * Z * Z)%type.
Definition FACE_FILL_FRONT : rgba := (0, 255, 0, 80)%Z.
Definition FACE_FILL_BACK : rgba := (0, 200, 255, 45)%Z.

(** What [draw_translucent_polygon] asks of pygame: a transparent layer of
    [blit_width] x [blit_height] pixels, the polygon [blit_points] filled on
    it in [blit_color], the layer composited at [blit_at]. *)
Record polygon_blit : Type := mkBlit {
  blit_width : Z;
  blit_height : Z;
  blit_points : list (R * R);
  blit_color : rgba;
  blit_at : Z * Z
}.

(** [draw_translucent_polygon]: the layers composited onto the surface, none
    when there are fewer than three points. *)
Definition draw_translucent_polygon (points : list (R * R)) (color : rgba)
  : list polygon_blit :=
  if (length points <? 3)%nat then []
  else
    let xs := map fst points in
    let ys := map snd points in
    let min_x := list_min xs in
    let max_x := list_max xs in
    let min_y := list_min ys in
    let max_y := list_max ys in
    let width := Z.max 1 (Zceil (max_x - min_x) + 4) in
    let height := Z.max 1 (Zceil (max_y - min_y) + 4) in
    let offset_x := (Zfloor min_x - 2)%Z in
    let offset_y := (Zfloor min_y - 2)%Z in
    let offset_points :=
      map (fun p => (fst p - IZR offset_x, snd p - IZR offset_y)) points in
    [mkBlit width height offset_points color (offset_x, offset_y)].

(** The drawing requests of a frame. *)
Inductive draw_cmd : Type :=
| DrawPolygon (b : polygon_blit)
| DrawLine (c : color) (p q : R * R) (width : Z)
| DrawCircle (c : color) (center : Z * Z) (radius : Z).

(** The body of [for ... in render_list]: the translucent fill, then the
    flagged edges. *)
Definition paint_item (it : RenderItem) : list draw_cmd :=
  match item_kind it with
  | ItemFace =>
      let fill_color := if is_back it then FACE_FILL_BACK else FACE_FILL_FRONT in
      map DrawPolygon (draw_translucent_polygon (item_points it) fill_color)
      ++ map (fun e => DrawLine (item_edge_color it) (fst e) (snd e) 1)
             (stroked_edges (item_points it) (item_edge_flags it))
  end.

(** The body of [for lx, ly, lsize, lcolor in light_draw_queue]. *)
Definition paint_light (l : proj_light) : draw_cmd :=
  let '(lx, ly, lsize, lcolor) := l in
  DrawCircle lcolor (py_int lx, py_int ly) (Z.max 1 (py_int lsize)).

(** Faces in sorted order, then every queued light. *)
Definition paint_frame (st : frame_state) : list draw_cmd :=
  flat_map paint_item (fst st) ++ map paint_light (snd st).

(** ** Input *)

Definition K_ESCAPE : Z := 27.

(** The pygame events [main] looks at; [OtherEvent] is any other type. *)
Inductive event : Type :=
| Quit
| KeyDown (key : Z)
| MouseButtonDown (button : Z) (pos : Z * Z)
| MouseButtonUp (button : Z)
| MouseMotion (pos : Z * Z)
| OtherEvent.

(** The variables of [main] the event loop reads and writes. *)
Record view_state : Type := mkView {
  running : bool;
  dragging : bool;
  last_mouse_pos : Z * Z;
  view_yaw : R;
  view_pitch : R
}.

Definition initial_view : view_state := mkView true false (0, 0)%Z INITIAL_YAW TILT.

(** The body of [for event in pygame.event.get()]. *)
Definition handle_event (st : view_state) (ev : event) : view_state :=
  match ev with
  | Quit =>
      mkView false (dragging st) (last_mouse_pos st) (view_yaw st) (view_pitch st)
  | KeyDown key =>
      if (key =? K_ESCAPE)%Z
      then mkView false (dragging st) (last_mouse_pos st) (view_yaw st) (view_pitch st)
      else st
  | MouseButtonDown button pos =>
      if (button =? 1)%Z
      then mkView (running st) true pos (view_yaw st) (view_pitch st)
      else st
  | MouseButtonUp button =>
      if (button =? 1)%Z
      then mkView (running st) false (last_mouse_pos st) (view_yaw st) (view_pitch st)
      else st
  | MouseMotion pos =>
      if dragging st then
        let dx := (fst pos - fst (last_mouse_pos st))%Z in
        let dy := (snd pos - snd (last_mouse_pos st))%Z in
        mkView (running st) (dragging st) pos
               (view_yaw st + IZR dx * (5 / 1000))
               (view_pitch st + IZR dy * (5 / 1000))
      else st
  | OtherEvent => st
  end.

Definition handle_events (st : view_state) (events : list event) : view_state :=
  fold_left handle_event events st.

(** ** Background stars *)

(** [x, y, size, brightness, color]. *)
Record star : Type := mkStar {
  star_x : Z;
  star_y : Z;
  star_size : R;
  star_brightness : Z;
  star_color : color
}.

(** [random.randint(a, b)] for [a <= b], from a raw draw: an integer of
    [[a, b]]. *)
Definition randint (a b : Z) (raw : nat) : Z := (a + Z.of_nat raw mod (b - a + 1))%Z.

(** The draws behind one star: the triple returned by
    [colorsys.hsv_to_rgb(hue, 1.0, 1.0)] for the drawn hue, the raw draws of
    the three [randint] calls and the fraction behind [random.uniform]. *)
Record star_draw : Type := mkStarDraw {
  sd_rgb : R * R * R;
  sd_x : nat;
  sd_y : nat;
  sd_frac : R;
  sd_brightness : nat
}.

Definition generate_bg_stars (rng : nat -> star_draw) (width height : Z)
    (count : nat) : list star :=
  map (fun k =>
         let d := rng k in
         let '(r, g, b) := sd_rgb d in
         mkStar (randint 0 width (sd_x d)) (randint 0 height (sd_y d))
                (uniform (5 / 10) 2 (sd_frac d))
                (randint 100 255 (sd_brightness d))
                (py_int (r * 255), py_int (g * 255), py_int (b * 255)))
      (seq 0 count).

(** [if random.random() < 0.02: s[3] = random.randint(100, 255)]; the pair
    is the coin and the raw draw of the new brightness. *)
Definition twinkle (s : star) (d : R * nat) : star :=
  if Rlt_dec (fst d) (2 / 100)
  then mkStar (star_x s) (star_y s) (star_size s) (randint 100 255 (snd d))
              (star_color s)
  else s.

(** The circle drawn for a star: its colour scaled by [b = s[3] / 255.0]. *)
Definition star_circle (s : star) : color * (Z * Z) * R :=
  let b := IZR (star_brightness s) / 255 in
  let '(c0, c1, c2) := star_color s in
  ((py_int (IZR c0 * b), py_int (IZR c1 * b), py_int (IZR c2 * b)),
   (star_x s, star_y s), star_size s).

(** One frame of [for s in bg_stars]: the stars after the twinkle and the
    circles drawn; [rng k] holds the draws for star [k]. *)
Definition stars_frame (rng : nat -> R * nat) (stars : list star)
  : list star * list (color * (Z * Z) * R) :=
  let stars' := map (fun ks => twinkle (snd ks) (rng (fst ks)))
                    (combine (seq 0 (length stars)) stars) in
  (stars', map star_circle stars').

(** ** Further notions used to state the properties *)

(** The directed edges of a face, each with its draw flag, as the paint
    loop pairs them. *)
Definition flagged_edges (fc : face) : list ((Z * Z) * bool) :=
  flat_map (fun k =>
              match polygon_edge (fst fc) k, nth_error (snd fc) k with
              | Some e, Some fl => [(e, fl)]
              | _, _ => []
              end)
           (seq 0 (Nat.min (length (fst fc)) (length (snd fc)))).

(** Side face [j] of ring step [i], for [n_rings] rings. *)
Definition side_face (n_rings i j : Z) : face :=
  ([(i - 1) * 4 + j; i * 4 + j; i * 4 + (j + 1) mod 4; (i - 1) * 4 + (j + 1) mod 4]%Z,
   [true; (i =? n_rings - 1)%Z; true; (i =? 1)%Z]).

(** The flag of a mesh edge of a segment with [n] subdivisions, from its end
    points alone: an edge between two rings is drawn, an edge along ring [r]
    only on the first and the last ring. *)
Definition mesh_edge_flag (n : Z) (e : Z * Z) : bool :=
  if (Z.abs (fst e - snd e) =? 4)%Z then true
  else ((fst e / 4 =? 0) || (fst e / 4 =? n))%Z.

(** The angle of ring [i] of a segment with [subdivs >= 1] subdivisions. *)
Definition ring_angle (angle_center angle_span : R) (subdivs i : Z) : R :=
  angle_center - angle_span / 2 + IZR i * (angle_span / IZR subdivs).

(** The rotation [p @ rotation_matrix_z(delta).T] of a vertex array. *)
Definition rotate_z (delta : R) (pts : list vec3) : list vec3 :=
  points_matmul pts (transpose (rotation_matrix_z delta)).

(** One projected light, as [project_lights] builds it. *)
Definition project_light (mat : mat3) (l : light) : proj_light :=
  let p := vec_matmul (fst (fst l)) (transpose mat) in
  (WIDTH / 2 + SCALE * vx p, HEIGHT / 2 - SCALE * vy p, snd (fst l), snd l).

(** All lights of a scene, segment by segment, face by face. *)
Definition scene_lights (segments : list segment) : list light :=
  flat_map (fun s : segment => concat (snd s)) segments.

(** A light whose sample point is a convex combination of the corners of
    the face [fc]. *)
Definition light_on_face (verts : list vec3) (fc : face) (l : light) : Prop :=
  exists (ia ib ic id : Z) (a b c d : vec3),
    fst fc = [ia; ib; ic; id] /\
    py_index verts ia = Some a /\ py_index verts ib = Some b /\
    py_index verts ic = Some c /\ py_index verts id = Some d /\
    in_convex_hull4 (fst (fst l)) a b c d.

(** The two size bands of [generate_lights_for_face]. *)
Definition light_size_in_band (l : light) : Prop :=
  15 / 100 <= snd (fst l) < 25 / 10 \/ 3 <= snd (fst l) < 8.

(** Draws as the generators deliver them: fractions in [[0, 1)]. *)
Definition draw_in_range (d : light_draw) : Prop :=
  0 <= d_u d < 1 /\ 0 <= d_v d < 1 /\ 0 <= d_frac d < 1.

(** A fixed draw, for examples. *)
Definition default_draw : light_draw := mkDraw 0 0 0 0 0 (100, 0, 0)%Z.

(** A colour with its three channels in [[0, 255]]. *)
Definition color_in_range (c : color) : Prop :=
  let '(r, g, b) := c in
  (0 <= r <= 255 /\ 0 <= g <= 255 /\ 0 <= b <= 255)%Z.

(** A star on the [width] x [height] surface (both bounds included, as
    [randint] includes them), of size in [[0.5, 2)], brightness in
    [[100, 255]] and a colour in range. *)
Definition star_ok (width height : Z) (s : star) : Prop :=
  (0 <= star_x s <= width)%Z /\ (0 <= star_y s <= height)%Z /\
  5 / 10 <= star_size s < 2 /\
  (100 <= star_brightness s <= 255)%Z /\
  color_in_range (star_color s).

(** Star draws as delivered: an RGB triple of [[0, 1]] and a fraction of
    [[0, 1)]. *)
Definition star_draw_in_range (d : star_draw) : Prop :=
  let '(r, g, b) := sd_rgb d in
  0 <= r <= 1 /\ 0 <= g <= 1 /\ 0 <= b <= 1 /\ 0 <= sd_frac d < 1.

(** Channel by channel, [c'] is between 0 and [c]. *)
Definition color_dimmed (c c' : color) : Prop :=
  let '(r, g, b) := c in
  let '(r', g', b') := c' in
  (0 <= r' <= r /\ 0 <= g' <= g /\ 0 <= b' <= b)%Z.
(** * Properties *)

(** ** Edge flags of a reversed polygon *)

Lemma reverse_edge_flags_snoc (l : list bool) (a : bool) :
  reverse_edge_flags (l ++ [a]) = rev l ++ [a].
Proof.
  unfold reverse_edge_flags.
  rewrite removelast_last, last_last, length_app. simpl.
  destruct l as [|b l]; simpl.
  - reflexivity.
  - replace (length l + 1 <=? 0)%nat with false; [reflexivity|].
    symmetry. apply Nat.leb_gt. lia.
Qed.

Lemma reverse_edge_flags_involutive (flags : list bool) :
  reverse_edge_flags (reverse_edge_flags flags) = flags.
Proof.
  induction flags as [|a l _] using rev_ind.
  - reflexivity.
  - rewrite !reverse_edge_flags_snoc, rev_involutive. reflexivity.
Qed.

Lemma reverse_edge_flags_length (flags : list bool) :
  length (reverse_edge_flags flags) = length flags.
Proof.
  induction flags as [|a l _] using rev_ind.
  - reflexivity.
  - rewrite reverse_edge_flags_snoc, !length_app, length_rev. reflexivity.
Qed.

(** C4: [reverse_edge_flags] keeps the length of every flag list, and on a
    flag list of length at least 2 applying it twice gives the list back. *)
Theorem reverse_edge_flags_length_involution (flags : list bool) :
  length (reverse_edge_flags flags) = length flags /\
  ((2 <= length flags)%nat ->
   reverse_edge_flags (reverse_edge_flags flags) = flags).
Proof.
  split.
  - apply reverse_edge_flags_length.
  - intros _. apply reverse_edge_flags_involutive.
Qed.

Lemma reverse_edge_flags_length_involution_witness :
  let flags := [true; false; false; true] in
  length (reverse_edge_flags flags) = length flags /\
  reverse_edge_flags (reverse_edge_flags flags) = flags.
Proof.
  intro flags.
  destruct (reverse_edge_flags_length_involution flags) as [Hlen Hinv].
  split; [exact Hlen | apply Hinv; simpl; lia].
Defined.

(** ** The definitions on concrete inputs *)

Example py_index_from_the_end : py_index [10; 20; 30]%Z (-1) = Some 30%Z.
Proof. reflexivity. Qed.

Example py_index_out_of_range :
  py_index [10; 20; 30]%Z 3 = None /\ py_index [10; 20; 30]%Z (-4) = None.
Proof. split; reflexivity. Qed.

Example reverse_edge_flags_quad (f0 f1 f2 f3 : bool) :
  reverse_edge_flags [f0; f1; f2; f3] = [f2; f1; f0; f3].
Proof. reflexivity. Qed.

Example reverse_edge_flags_short (f0 : bool) :
  reverse_edge_flags [] = [] /\ reverse_edge_flags [f0] = [f0].
Proof. split; reflexivity. Qed.

(** The six faces of a segment with one subdivision. *)
Example faces_one_subdivision :
  side_faces 1 ++ [start_cap; end_cap 2]
  = [([0; 4; 5; 1]%Z, [true; true; true; true]);
     ([1; 5; 6; 2]%Z, [true; true; true; true]);
     ([2; 6; 7; 3]%Z, [true; true; true; true]);
     ([3; 7; 4; 0]%Z, [true; true; true; true]);
     ([0; 1; 2; 3]%Z, [true; true; true; true]);
     ([7; 6; 5; 4]%Z, [true; true; true; true])].
Proof. reflexivity. Qed.

(** Ring step 2 of 3: neither ring edge is flagged. *)
Example ring_faces_inner_step :
  ring_faces 4 2
  = [([4; 8; 9; 5]%Z, [true; false; true; false]);
     ([5; 9; 10; 6]%Z, [true; false; true; false]);
     ([6; 10; 11; 7]%Z, [true; false; true; false]);
     ([7; 11; 8; 4]%Z, [true; false; true; false])].
Proof. reflexivity. Qed.

(** Outside the builder's contract: [subdivs = -1] gives no vertex and the
    two caps, a smaller value makes [np.linspace] raise. *)
Example segment_without_rings (angle_center angle_span r_inner r_outer height bevel : R) :
  make_curved_beveled_segment angle_center angle_span r_inner r_outer height
                              (-1) bevel
  = Some ([], [], [([0; 1; 2; 3]%Z, [true; true; true; true]);
                   ([-1; -2; -3; -4]%Z, [true; true; true; true])]) /\
  make_curved_beveled_segment angle_center angle_span r_inner r_outer height
                              (-2) bevel = None.
Proof. split; reflexivity. Qed.

(** A face without indices has no first vertex: [face[0]] raises. *)
Example sample_point_on_quad_empty_face (verts : list vec3) (u v : R) :
  sample_point_on_quad verts [] u v = None.
Proof. reflexivity. Qed.

(** A segment without vertices is skipped by the frame loop. *)
Example segment_items_no_vertices (mat : mat3) (st : frame_state) :
  segment_items mat ([], [], [start_cap], [[]]) st = Some st.
Proof. reflexivity. Qed.

Section BackFace.

Context {A : Type}.

Lemma polygon_edge_out_of_range (points : list A) (k : nat) :
  (length points <= k)%nat -> polygon_edge points k = None.
Proof.
  intros H. unfold polygon_edge.
  destruct (nth_error points k) eqn:E; [|reflexivity].
  apply nth_error_None in H. congruence.
Qed.

Ltac quad_lists points_2d edge_flags :=
  destruct points_2d as [|p0 [|p1 [|p2 [|p3 [|? ?]]]]]; try discriminate;
  destruct edge_flags as [|f0 [|f1 [|f2 [|f3 [|? ?]]]]]; try discriminate.

(** After the front edge is chosen: the equations hold by computation, and
    with distinct corners no other front edge joins the same pair. *)
Ltac settle_edge Hdistinct Hfar :=
  repeat split; try reflexivity; try lia; try (right; reflexivity);
  let Hnd := fresh "Hnd" in
  let j' := fresh "j'" in
  let He := fresh "He" in
  let Hsame := fresh "Hsame" in
  let E := fresh "E" in
  intros Hnd j' ? He Hsame; apply Hdistinct in Hnd;
  destruct j' as [|[|[|[|j']]]];
    [ | | | | rewrite Hfar in He by lia; discriminate ];
    cbv in He; injection He as <-; try reflexivity;
    exfalso; destruct Hsame as [E | E]; cbv in E; injection E; intros;
    subst; tauto.

(** C2: for a quadrilateral with four edge-draw flags, every edge [k] of
    the reversed polygon joins the same unordered pair of corners as an edge
    [j] of the front polygon, and the flag [reverse_edge_flags] puts at
    position [k] is the front flag of that edge [j]; when the four corners are
    distinct, it is the flag of every front edge joining that pair. *)
Theorem back_face_edges_consistent (points_2d : list A) (edge_flags : list bool) :
  length points_2d = 4%nat ->
  length edge_flags = 4%nat ->
  forall k, (k < 4)%nat ->
  exists (j : nat) (e_back e_front : A * A) (fl : bool),
    (j < 4)%nat /\
    polygon_edge (rev points_2d) k = Some e_back /\
    polygon_edge points_2d j = Some e_front /\
    same_edge e_back e_front /\
    nth_error (reverse_edge_flags edge_flags) k = Some fl /\
    nth_error edge_flags j = Some fl /\
    (NoDup points_2d ->
     forall j' e', polygon_edge points_2d j' = Some e' ->
                   same_edge e_back e' ->
                   nth_error edge_flags j' = Some fl).
Proof.
  intros Hp Hf k Hk.
  quad_lists points_2d edge_flags.
  assert (Hcases : (k = 0 \/ k = 1 \/ k = 2 \/ k = 3)%nat) by lia.
  assert (Hfar : forall j', (4 <= j')%nat ->
                            polygon_edge [p0; p1; p2; p3] j' = None)
    by (intros; apply polygon_edge_out_of_range; simpl; lia).
  assert (Hdistinct : NoDup [p0; p1; p2; p3] ->
                      p0 <> p1 /\ p0 <> p2 /\ p0 <> p3 /\
                      p1 <> p2 /\ p1 <> p3 /\ p2 <> p3).
  { intros Hnd.
    inversion Hnd as [|? ? Hn0 Hnd1]; subst.
    inversion Hnd1 as [|? ? Hn1 Hnd2]; subst.
    inversion Hnd2 as [|? ? Hn2 Hnd3]; subst.
    simpl in Hn0, Hn1, Hn2.
    repeat split; intros ->; tauto. }
  destruct Hcases as [-> | [-> | [-> | ->]]].
  - exists 2%nat, (p3, p2), (p2, p3), f2.
    settle_edge Hdistinct Hfar.
  - exists 1%nat, (p2, p1), (p1, p2), f1.
    settle_edge Hdistinct Hfar.
  - exists 0%nat, (p1, p0), (p0, p1), f0.
    settle_edge Hdistinct Hfar.
  - exists 3%nat, (p0, p3), (p3, p0), f3.
    settle_edge Hdistinct Hfar.
Qed.

(** The strokes of a back item are those of its front item, each edge
    taken in the opposite direction. *)
Lemma stroked_edges_back (points_2d : list A) (edge_flags : list bool) :
  length points_2d = 4%nat ->
  length edge_flags = 4%nat ->
  Permutation (stroked_edges (rev points_2d) (reverse_edge_flags edge_flags))
              (map (fun e => (snd e, fst e)) (stroked_edges points_2d edge_flags)).
Proof.
  intros Hp Hf.
  quad_lists points_2d edge_flags.
  destruct f0, f1, f2, f3; cbv;
    repeat first
      [ apply perm_nil
      | apply perm_skip
      | apply (Permutation_cons_app [_] _ _); simpl
      | apply (Permutation_cons_app [_; _] _ _); simpl ].
Qed.

End BackFace.

Lemma back_face_edges_consistent_witness :
  exists (j : nat) (e_back e_front : Z * Z) (fl : bool),
    (j < 4)%nat /\
    polygon_edge (rev [10; 11; 12; 13]%Z) 0 = Some e_back /\
    polygon_edge [10; 11; 12; 13]%Z j = Some e_front /\
    same_edge e_back e_front /\
    nth_error (reverse_edge_flags [true; false; true; false]) 0 = Some fl /\
    nth_error [true; false; true; false] j = Some fl /\
    (NoDup [10; 11; 12; 13]%Z ->
     forall j' e', polygon_edge [10; 11; 12; 13]%Z j' = Some e' ->
                   same_edge e_back e' ->
                   nth_error [true; false; true; false] j' = Some fl).
Proof.
  apply (back_face_edges_consistent [10; 11; 12; 13]%Z [true; false; true; false]).
  - reflexivity.
  - reflexivity.
  - lia.
Defined.

(** ** Geometry builder *)

Lemma length_range (n : nat) : length (range n) = n.
Proof. unfold range. rewrite length_map, length_seq. reflexivity. Qed.

Lemma linspace_some (start stop : R) (num : Z) :
  (0 <= num)%Z ->
  exists thetas, linspace start stop num = Some thetas /\
                 length thetas = Z.to_nat num.
Proof.
  intros H. unfold linspace.
  destruct (Z.ltb_spec num 0); [lia|].
  eexists. split; [reflexivity|].
  rewrite length_map, length_range. reflexivity.
Qed.

Lemma length_ring_verts (rs zs : list R) (theta : R) :
  length (ring_verts rs zs theta) = 4%nat.
Proof. reflexivity. Qed.

Lemma length_ring_faces (n_rings i : Z) : length (ring_faces n_rings i) = 4%nat.
Proof. reflexivity. Qed.

Lemma length_flat_map_const {A B : Type} (f : A -> list B) (c : nat) (l : list A) :
  (forall a, length (f a) = c) -> length (flat_map f l) = (c * length l)%nat.
Proof.
  intros Hf. induction l as [|a l IH]; simpl.
  - lia.
  - rewrite length_app, Hf, IH. lia.
Qed.

(** Entry [c * q + r] of a [flat_map] with blocks of constant length [c]. *)
Lemma nth_error_flat_map_const {A B : Type} (f : A -> list B) (c : nat)
    (l : list A) (q r : nat) (a : A) :
  (forall x, length (f x) = c) ->
  nth_error l q = Some a ->
  (r < c)%nat ->
  nth_error (flat_map f l) (c * q + r) = nth_error (f a) r.
Proof.
  intros Hf. revert q.
  induction l as [|x l IH]; intros q Hq Hr.
  - destruct q; discriminate.
  - destruct q as [|q]; simpl in *.
    + injection Hq as ->. rewrite Nat.mul_0_r. simpl.
      apply nth_error_app1. rewrite Hf. exact Hr.
    + rewrite nth_error_app2 by (rewrite Hf; lia).
      rewrite Hf. replace (c * S q + r - c)%nat with (c * q + r)%nat by lia.
      apply IH; assumption.
Qed.

Section SegmentLoop.

Variables (rs zs : list R) (n_rings : Z).

(** The loop over [enumerate(theta_steps)], started at index [k]. *)
Lemma fold_segment_step (thetas : list R) :
  forall (k : nat) (st : list vec3 * list face),
    fold_left (segment_step rs zs n_rings)
              (combine (map Z.of_nat (seq k (length thetas))) thetas) st
    = (fst st ++ flat_map (ring_verts rs zs) thetas,
       snd st ++ flat_map (faces_at n_rings) (map Z.of_nat (seq k (length thetas)))).
Proof.
  induction thetas as [|theta thetas IH]; intros k [verts faces]; simpl.
  - rewrite !app_nil_r. reflexivity.
  - rewrite IH. unfold faces_at at 2.
    destruct (0 <? Z.of_nat k)%Z; simpl; rewrite <- !app_assoc; reflexivity.
Qed.

Lemma flat_map_faces_at_positive (k n : nat) :
  (0 < k)%nat ->
  flat_map (faces_at n_rings) (map Z.of_nat (seq k n))
  = flat_map (ring_faces n_rings) (map Z.of_nat (seq k n)).
Proof.
  intros Hk. rewrite !flat_map_concat_map. f_equal. apply map_ext_in.
  intros i Hi. apply in_map_iff in Hi. destruct Hi as [j [<- Hj]].
  apply in_seq in Hj. unfold faces_at.
  destruct (Z.ltb_spec 0 (Z.of_nat j)); [reflexivity | lia].
Qed.

End SegmentLoop.

(** The builder in closed form, for a non-negative subdivision count. *)
Lemma make_curved_beveled_segment_eq
    (angle_center angle_span r_inner r_outer height : R)
    (subdivs : Z) (bevel : R) :
  (0 <= subdivs)%Z ->
  let n := Z.to_nat subdivs in
  let rs := [r_inner; r_outer; r_outer; r_inner] in
  let zs := [- height / 2; - height / 2; height / 2; height / 2] in
  exists thetas,
    length thetas = S n /\
    make_curved_beveled_segment angle_center angle_span r_inner r_outer height
                                subdivs bevel
    = Some (flat_map (ring_verts rs zs) thetas, [],
            side_faces n ++ [start_cap; end_cap (Z.of_nat (S n))]).
Proof.
  intros Hs n rs zs.
  unfold make_curved_beveled_segment.
  destruct (linspace_some (angle_center - angle_span * (5 / 10))
                          (angle_center + angle_span * (5 / 10))
                          (subdivs + 1)) as [thetas [-> Hlen]]; [lia|].
  replace (Z.to_nat (subdivs + 1)) with (S n) in Hlen by lia.
  exists thetas. split; [exact Hlen|].
  unfold bind, enumerate, range. rewrite fold_segment_step.
  rewrite Hlen. simpl fst. simpl snd. rewrite !app_nil_l.
  rewrite <- cons_seq. cbn [map flat_map].
  change (faces_at (Z.of_nat (S n)) (Z.of_nat 0)) with (@nil face).
  rewrite app_nil_l, flat_map_faces_at_positive by lia.
  rewrite <- app_assoc. reflexivity.
Qed.

Lemma length_side_faces (n : nat) : length (side_faces n) = (4 * n)%nat.
Proof.
  unfold side_faces.
  rewrite (length_flat_map_const _ 4) by apply length_ring_faces.
  rewrite length_map, length_seq. reflexivity.
Qed.

(** Side face [j] of ring step [i], as the loop body builds it. *)
Lemma ring_faces_nth (n_rings i j : Z) :
  (0 <= j < 4)%Z ->
  nth_error (ring_faces n_rings i) (Z.to_nat j)
  = Some ([(i - 1) * 4 + j; i * 4 + j;
           i * 4 + (j + 1) mod 4; (i - 1) * 4 + (j + 1) mod 4]%Z,
          [true; (i =? n_rings - 1)%Z; true; (i =? 1)%Z]).
Proof.
  intros Hj.
  assert (Hc : (j = 0 \/ j = 1 \/ j = 2 \/ j = 3)%Z) by lia.
  destruct Hc as [-> | [-> | [-> | ->]]]; reflexivity.
Qed.

Lemma side_faces_nth (n : nat) (i j : Z) :
  (1 <= i <= Z.of_nat n)%Z ->
  (0 <= j < 4)%Z ->
  nth_error (side_faces n) (Z.to_nat (4 * (i - 1) + j))
  = nth_error (ring_faces (Z.of_nat (S n)) i) (Z.to_nat j).
Proof.
  intros Hi Hj. unfold side_faces.
  replace (Z.to_nat (4 * (i - 1) + j))
    with (4 * Z.to_nat (i - 1) + Z.to_nat j)%nat by lia.
  apply nth_error_flat_map_const.
  - apply length_ring_faces.
  - rewrite nth_error_map, nth_error_seq.
    destruct (Nat.ltb_spec (Z.to_nat (i - 1)) n); [|lia].
    simpl. f_equal. lia.
  - lia.
Qed.

Section Segment.

Variables (angle_center angle_span r_inner r_outer height : R).
Variable subdivs : Z.
Variable bevel : R.

(** C3: for [subdivs >= 1] the builder returns [4 * (subdivs + 1)] vertices
    and [subdivs * 4 + 2] faces (28 and 26 for [subdivs = 6]). *)
Theorem segment_vertex_and_face_count :
  (1 <= subdivs)%Z ->
  exists verts faces,
    make_curved_beveled_segment angle_center angle_span r_inner r_outer height
                                subdivs bevel = Some (verts, [], faces) /\
    Z.of_nat (length verts) = (4 * (subdivs + 1))%Z /\
    Z.of_nat (length faces) = (subdivs * 4 + 2)%Z.
Proof.
  intros Hs.
  destruct (make_curved_beveled_segment_eq angle_center angle_span r_inner
              r_outer height subdivs bevel) as [thetas [Hlen Heq]]; [lia|].
  do 2 eexists. split; [exact Heq|]. split.
  - rewrite (length_flat_map_const _ 4) by apply length_ring_verts. lia.
  - rewrite length_app, length_side_faces. simpl length. lia.
Qed.

(** C5: for [subdivs >= 1], side face [j] of ring step [i] (between rings
    [i - 1] and [i]) carries the flags
    [[true; i is the last ring; true; i is the first ring step]], and the two
    end caps, which close the face list, carry four [true] flags. *)
Theorem segment_edge_flags :
  (1 <= subdivs)%Z ->
  exists verts faces,
    make_curved_beveled_segment angle_center angle_span r_inner r_outer height
                                subdivs bevel = Some (verts, [], faces) /\
    Z.of_nat (length faces) = (subdivs * 4 + 2)%Z /\
    (forall i j, (1 <= i <= subdivs)%Z -> (0 <= j < 4)%Z ->
       nth_error faces (Z.to_nat (4 * (i - 1) + j))
       = Some ([(i - 1) * 4 + j; i * 4 + j;
                i * 4 + (j + 1) mod 4; (i - 1) * 4 + (j + 1) mod 4]%Z,
               [true; (i =? subdivs)%Z; true; (i =? 1)%Z])) /\
    nth_error faces (Z.to_nat (4 * subdivs))
    = Some ([0; 1; 2; 3]%Z, [true; true; true; true]) /\
    nth_error faces (Z.to_nat (4 * subdivs + 1))
    = Some ([subdivs * 4 + 3; subdivs * 4 + 2; subdivs * 4 + 1; subdivs * 4]%Z,
            [true; true; true; true]).
Proof.
  intros Hs.
  destruct (make_curved_beveled_segment_eq angle_center angle_span r_inner
              r_outer height subdivs bevel) as [thetas [Hlen Heq]]; [lia|].
  set (n := Z.to_nat subdivs) in *.
  assert (Hn : (Z.of_nat (S n) - 1 = subdivs)%Z) by lia.
  do 2 eexists. split; [exact Heq|]. repeat split.
  - rewrite length_app, length_side_faces. simpl length. lia.
  - intros i j Hi Hj.
    rewrite nth_error_app1 by (rewrite length_side_faces; lia).
    rewrite side_faces_nth, ring_faces_nth by lia.
    rewrite Hn. reflexivity.
  - rewrite nth_error_app2 by (rewrite length_side_faces; lia).
    rewrite length_side_faces.
    replace (Z.to_nat (4 * subdivs) - 4 * n)%nat with 0%nat by lia.
    reflexivity.
  - rewrite nth_error_app2 by (rewrite length_side_faces; lia).
    rewrite length_side_faces.
    replace (Z.to_nat (4 * subdivs + 1) - 4 * n)%nat with 1%nat by lia.
    unfold end_cap. rewrite Hn. reflexivity.
Qed.

End Segment.

(** C9: two calls of the builder that differ only in [bevel] return the same
    vertices, edge list and faces. *)
Theorem bevel_has_no_effect
    (angle_center angle_span r_inner r_outer height : R) (subdivs : Z)
    (bevel1 bevel2 : R) :
  make_curved_beveled_segment angle_center angle_span r_inner r_outer height
                              subdivs bevel1
  = make_curved_beveled_segment angle_center angle_span r_inner r_outer height
                                subdivs bevel2.
Proof. reflexivity. Qed.

Lemma segment_vertex_and_face_count_witness :
  exists verts faces,
    make_curved_beveled_segment 0 (radians 27) R_INNER R_OUTER SEG_HEIGHT
                                6 BEVEL_SIZE = Some (verts, [], faces) /\
    length verts = 28%nat /\ length faces = 26%nat.
Proof.
  destruct (segment_vertex_and_face_count 0 (radians 27) R_INNER R_OUTER
              SEG_HEIGHT 6 BEVEL_SIZE) as [verts [faces [Heq [Hv Hf]]]].
  - lia.
  - exists verts, faces. split; [exact Heq|]. split; lia.
Defined.

Lemma segment_edge_flags_witness :
  exists verts faces,
    make_curved_beveled_segment 0 (radians 27) R_INNER R_OUTER SEG_HEIGHT
                                6 BEVEL_SIZE = Some (verts, [], faces) /\
    nth_error faces 0 = Some ([0; 4; 5; 1]%Z, [true; false; true; true]) /\
    nth_error faces 23 = Some ([23; 27; 24; 20]%Z, [true; true; true; false]) /\
    nth_error faces 24 = Some ([0; 1; 2; 3]%Z, [true; true; true; true]) /\
    nth_error faces 25 = Some ([27; 26; 25; 24]%Z, [true; true; true; true]).
Proof.
  destruct (segment_edge_flags 0 (radians 27) R_INNER R_OUTER
              SEG_HEIGHT 6 BEVEL_SIZE)
    as [verts [faces [Heq [_ [Hside [Hc0 Hc1]]]]]].
  - lia.
  - exists verts, faces. split; [exact Heq|].
    split; [exact (Hside 1%Z 0%Z ltac:(lia) ltac:(lia))|].
    split; [exact (Hside 6%Z 3%Z ltac:(lia) ltac:(lia))|].
    split; [exact Hc0 | exact Hc1].
Defined.

(** ** Light sampling *)

Lemma bilinear_weights (u v : R) :
  0 <= u <= 1 -> 0 <= v <= 1 ->
  0 <= (1 - u) * (1 - v) <= 1 /\ 0 <= u * (1 - v) <= 1 /\
  0 <= u * v <= 1 /\ 0 <= (1 - u) * v <= 1 /\
  (1 - u) * (1 - v) + u * (1 - v) + u * v + (1 - u) * v = 1.
Proof. intros Hu Hv. repeat split; nra. Qed.

(** C6: on a face of four valid vertex indices the sampled point is the
    bilinear combination of the four corners with parameters [u], [v] in
    [[0, 1]]; its four weights lie in [[0, 1]] and sum to 1, so the point is
    in the convex hull of the corners.  On a face whose index list has
    another length the function evaluates to [verts[face[0]]], the face's
    first vertex. *)
Theorem sample_point_on_quad_spec (verts : list vec3) (u v : R) :
  0 <= u <= 1 -> 0 <= v <= 1 ->
  (forall (ia ib ic id : Z) (a b c d : vec3),
     py_index verts ia = Some a -> py_index verts ib = Some b ->
     py_index verts ic = Some c -> py_index verts id = Some d ->
     let wa := (1 - u) * (1 - v) in
     let wb := u * (1 - v) in
     let wc := u * v in
     let wd := (1 - u) * v in
     let p := vadd (vadd (vadd (vscale wa a) (vscale wb b)) (vscale wc c))
                   (vscale wd d) in
     sample_point_on_quad verts [ia; ib; ic; id] u v = Some p /\
     0 <= wa <= 1 /\ 0 <= wb <= 1 /\ 0 <= wc <= 1 /\ 0 <= wd <= 1 /\
     wa + wb + wc + wd = 1 /\
     in_convex_hull4 p a b c d) /\
  (forall face : list Z,
     length face <> 4%nat ->
     sample_point_on_quad verts face u v
     = (i0 <- py_index face 0 ;; py_index verts i0)) /\
  (forall (i0 : Z) (rest : list Z) (p : vec3),
     length (i0 :: rest) <> 4%nat ->
     py_index verts i0 = Some p ->
     sample_point_on_quad verts (i0 :: rest) u v = Some p).
Proof.
  intros Hu Hv.
  assert (Hdeg : forall face : list Z,
             length face <> 4%nat ->
             sample_point_on_quad verts face u v
             = (i0 <- py_index face 0 ;; py_index verts i0)).
  { intros face Hlen. unfold sample_point_on_quad.
    destruct (Nat.eqb_spec (length face) 4); [contradiction | reflexivity]. }
  split; [|split].
  - intros ia ib ic id a b c d Ha Hb Hc Hd wa wb wc wd p.
    destruct (bilinear_weights u v Hu Hv) as [H1 [H2 [H3 [H4 H5]]]].
    split.
    + unfold sample_point_on_quad. simpl. rewrite Ha, Hb, Hc, Hd. reflexivity.
    + repeat split; try tauto.
      exists wa, wb, wc, wd. repeat split; tauto.
  - exact Hdeg.
  - intros i0 rest p Hlen Hp. rewrite Hdeg by exact Hlen. exact Hp.
Qed.

Lemma sample_point_on_quad_spec_witness :
  let verts := [mkVec 0 0 0; mkVec 1 0 0; mkVec 1 1 0; mkVec 0 1 0] in
  sample_point_on_quad verts [0; 1; 2; 3]%Z (1 / 2) (1 / 4)
  = Some (vadd (vadd (vadd (vscale ((1 - 1 / 2) * (1 - 1 / 4)) (mkVec 0 0 0))
                           (vscale (1 / 2 * (1 - 1 / 4)) (mkVec 1 0 0)))
                     (vscale (1 / 2 * (1 / 4)) (mkVec 1 1 0)))
               (vscale ((1 - 1 / 2) * (1 / 4)) (mkVec 0 1 0))) /\
  sample_point_on_quad verts [2; 0; 1]%Z (1 / 2) (1 / 4) = Some (mkVec 1 1 0).
Proof.
  intro verts.
  assert (Hu : 0 <= 1 / 2 <= 1) by lra.
  assert (Hv : 0 <= 1 / 4 <= 1) by lra.
  destruct (sample_point_on_quad_spec verts (1 / 2) (1 / 4) Hu Hv)
    as [Hquad [_ Hfirst]].
  split.
  - apply (Hquad 0%Z 1%Z 2%Z 3%Z); reflexivity.
  - apply Hfirst; [simpl; lia | reflexivity].
Defined.

(** ** Rotation *)

Ltac mat_eq :=
  cbv [matmul vec_matmul transpose dot col0 col1 col2 identity3 det3
       row0 row1 row2 vx vy vz];
  repeat match goal with
         | |- mkMat _ _ _ = mkMat _ _ _ => f_equal
         | |- mkVec _ _ _ = mkVec _ _ _ => f_equal
         end;
  try ring.

Lemma matmul_assoc (a b c : mat3) :
  matmul (matmul a b) c = matmul a (matmul b c).
Proof.
  destruct a as [[? ? ?] [? ? ?] [? ? ?]], b as [[? ? ?] [? ? ?] [? ? ?]],
           c as [[? ? ?] [? ? ?] [? ? ?]].
  mat_eq.
Qed.

Lemma transpose_matmul (a b : mat3) :
  transpose (matmul a b) = matmul (transpose b) (transpose a).
Proof.
  destruct a as [[? ? ?] [? ? ?] [? ? ?]], b as [[? ? ?] [? ? ?] [? ? ?]].
  mat_eq.
Qed.

Lemma matmul_identity_r (a : mat3) : matmul a identity3 = a.
Proof. destruct a as [[? ? ?] [? ? ?] [? ? ?]]. mat_eq. Qed.

Lemma det3_matmul (a b : mat3) : det3 (matmul a b) = det3 a * det3 b.
Proof.
  destruct a as [[? ? ?] [? ? ?] [? ? ?]], b as [[? ? ?] [? ? ?] [? ? ?]].
  mat_eq.
Qed.

Lemma orthonormal_matmul (a b : mat3) :
  orthonormal a -> orthonormal b -> orthonormal (matmul a b).
Proof.
  intros [Ha Da] [Hb Db]. split.
  - rewrite transpose_matmul, matmul_assoc.
    rewrite <- (matmul_assoc b), Hb.
    destruct a as [[? ? ?] [? ? ?] [? ? ?]].
    revert Ha. cbv [matmul vec_matmul transpose dot col0 col1 col2 identity3
                    row0 row1 row2 vx vy vz].
    intros Ha. rewrite <- Ha.
    repeat match goal with
           | |- mkMat _ _ _ = mkMat _ _ _ => f_equal
           | |- mkVec _ _ _ = mkVec _ _ _ => f_equal
           end; ring.
  - rewrite det3_matmul, Da, Db. ring.
Qed.

Lemma cos2_sin2 (theta : R) : cos theta * cos theta + sin theta * sin theta = 1.
Proof. generalize (sin2_cos2 theta). unfold Rsqr. lra. Qed.

Ltac rotation_orthonormal theta :=
  split; cbv [rotation_matrix_x rotation_matrix_y rotation_matrix_z];
  mat_eq; generalize (cos2_sin2 theta); intros; nra.

Lemma rotation_matrix_z_orthonormal (theta : R) :
  orthonormal (rotation_matrix_z theta).
Proof. rotation_orthonormal theta. Qed.

Lemma rotation_matrix_x_orthonormal (theta : R) :
  orthonormal (rotation_matrix_x theta).
Proof. rotation_orthonormal theta. Qed.

Lemma rotation_matrix_y_orthonormal (theta : R) :
  orthonormal (rotation_matrix_y theta).
Proof. rotation_orthonormal theta. Qed.

(** C7: for all yaw, pitch and spin the matrix
    [M = rotation_matrix_y yaw @ rotation_matrix_x pitch @ rotation_matrix_z spin]
    satisfies [M @ M.T = identity] and [det M = 1], in real arithmetic. *)
Theorem compose_rotation_orthonormal (yaw pitch spin : R) :
  let M := compose_rotation yaw pitch spin in
  matmul M (transpose M) = identity3 /\ det3 M = 1.
Proof.
  apply orthonormal_matmul; [apply orthonormal_matmul|].
  - apply rotation_matrix_y_orthonormal.
  - apply rotation_matrix_x_orthonormal.
  - apply rotation_matrix_z_orthonormal.
Qed.

(** ** Projection *)

(** The projection in closed form on a non-empty array: orthographic, [x]
    centred, [y] flipped, [z] dropped, and a mask that is [true] throughout. *)
Lemma project_points_cons (p : vec3) (pts : list vec3) :
  project_points (p :: pts)
  = (screen_xs (p :: pts), screen_ys (p :: pts), all_true (p :: pts),
     map (fun _ => 1) (p :: pts)).
Proof.
  unfold project_points, screen_xs, screen_ys, all_true. cbn [length Nat.eqb].
  rewrite !map_map.
  repeat match goal with |- (_, _) = (_, _) => f_equal end;
    apply map_ext; intros q; cbn [vtimes vx vy]; try reflexivity; lra.
Qed.

Lemma project_points_mask (pts : list vec3) :
  Forall (fun m => m = true) (snd (fst (project_points pts))).
Proof.
  destruct pts as [|p pts].
  - constructor.
  - rewrite project_points_cons. cbn [fst snd]. unfold all_true.
    apply Forall_map. apply Forall_forall. reflexivity.
Qed.

Lemma compose_rotation_zero : compose_rotation 0 0 0 = identity3.
Proof.
  unfold compose_rotation, rotation_matrix_x, rotation_matrix_y,
    rotation_matrix_z.
  rewrite cos_0, sin_0. mat_eq.
Qed.

Lemma vec_matmul_identity (p : vec3) : vec_matmul p (transpose identity3) = p.
Proof.
  destruct p as [x y z].
  cbv [vec_matmul transpose identity3 dot col0 col1 col2 row0 row1 row2 vx vy vz].
  f_equal; ring.
Qed.

(** C8: with yaw, pitch and spin all 0 the composed matrix is the identity,
    and the model point (1, 0, 0), transformed and projected, lands on
    [(WIDTH / 2 + SCALE, HEIGHT / 2)].  The projection of any point
    [(x, y, z)] is [(WIDTH / 2 + SCALE * x, HEIGHT / 2 - SCALE * y)]: [x]
    centred, [y] flipped, [z] not used. *)
Theorem identity_rotation_and_projection :
  compose_rotation 0 0 0 = identity3 /\
  project_points (points_matmul [mkVec 1 0 0]
                                (transpose (compose_rotation 0 0 0)))
  = ([WIDTH / 2 + SCALE], [HEIGHT / 2], [true], [1]) /\
  project_points [mkVec 1 0 0] = ([WIDTH / 2 + SCALE], [HEIGHT / 2], [true], [1]) /\
  (forall (p : vec3) (pts : list vec3),
     project_points (p :: pts)
     = (map (fun q => WIDTH / 2 + SCALE * vx q) (p :: pts),
        map (fun q => HEIGHT / 2 - SCALE * vy q) (p :: pts),
        map (fun _ => true) (p :: pts),
        map (fun _ => 1) (p :: pts))).
Proof.
  assert (H100 : project_points [mkVec 1 0 0]
                 = ([WIDTH / 2 + SCALE], [HEIGHT / 2], [true], [1])).
  { rewrite project_points_cons. unfold screen_xs, screen_ys, all_true.
    cbn [map vx vy].
    repeat match goal with |- (_, _) = (_, _) => f_equal end;
      try reflexivity; f_equal; lra. }
  split; [apply compose_rotation_zero|]. split; [|split].
  - rewrite compose_rotation_zero. unfold points_matmul. cbn [map].
    rewrite vec_matmul_identity. exact H100.
  - exact H100.
  - intros p pts. apply project_points_cons.
Qed.

(** ** Indexing *)

Lemma py_index_in_range {A : Type} (l : list A) (idx : Z) :
  (0 <= idx < Z.of_nat (length l))%Z ->
  exists a, py_index l idx = Some a.
Proof.
  intros H. unfold py_index.
  destruct (Z.leb_spec 0 idx); [|lia].
  destruct (nth_error l (Z.to_nat idx)) eqn:E; [eauto|].
  apply nth_error_None in E. lia.
Qed.

Lemma py_index_map {A B : Type} (f : A -> B) (l : list A) (idx : Z) :
  py_index (map f l) idx = option_map f (py_index l idx).
Proof.
  unfold py_index. rewrite length_map.
  destruct (0 <=? idx)%Z; [apply nth_error_map|].
  destruct (- Z.of_nat (length l) <=? idx)%Z; [apply nth_error_map | reflexivity].
Qed.

Lemma py_index_map_some {A B : Type} (f : A -> B) (l : list A) (idx : Z) (a : A) :
  py_index l idx = Some a -> py_index (map f l) idx = Some (f a).
Proof. intros H. rewrite py_index_map, H. reflexivity. Qed.

(** ** The sort *)

Lemma insert_by_depth_perm (x : RenderItem) (l : list RenderItem) :
  Permutation (x :: l) (insert_by_depth x l).
Proof.
  induction l as [|y l IH]; simpl.
  - apply Permutation_refl.
  - destruct (Rle_dec (depth_key x) (depth_key y)).
    + apply Permutation_refl.
    + eapply perm_trans; [apply perm_swap|]. apply perm_skip. exact IH.
Qed.

Lemma sort_by_depth_perm (l : list RenderItem) :
  Permutation l (sort_by_depth l).
Proof.
  induction l as [|x l IH]; simpl.
  - apply perm_nil.
  - eapply perm_trans; [apply perm_skip; exact IH|].
    apply insert_by_depth_perm.
Qed.

Lemma insert_by_depth_sorted (x : RenderItem) (l : list RenderItem) :
  non_decreasing l -> non_decreasing (insert_by_depth x l).
Proof.
  unfold non_decreasing.
  induction l as [|y l IH]; intros Hs; simpl.
  - constructor; constructor.
  - inversion Hs as [|? ? Hl Hy]; subst.
    destruct (Rle_dec (depth_key x) (depth_key y)) as [Hle | Hgt].
    + constructor; [exact Hs|].
      constructor; [exact Hle|].
      eapply Forall_impl; [|exact Hy]. intros z Hz. simpl in Hz. lra.
    + constructor; [apply IH; exact Hl|].
      apply (Permutation_Forall (insert_by_depth_perm x l)).
      constructor; [lra | exact Hy].
Qed.

Lemma sort_by_depth_sorted (l : list RenderItem) :
  non_decreasing (sort_by_depth l).
Proof.
  induction l as [|x l IH]; simpl.
  - constructor.
  - apply insert_by_depth_sorted. exact IH.
Qed.

(** ** The render list of a frame *)

Lemma paired_app {X : Type} (P : X -> RenderItem -> RenderItem -> Prop)
    (xs ys : list X) (rl rl' : list RenderItem) :
  paired P xs rl -> paired P ys rl' -> paired P (xs ++ ys) (rl ++ rl').
Proof.
  intros H1 H2. induction H1; simpl; [exact H2 | constructor; assumption].
Qed.

Lemma paired_length {X : Type} (P : X -> RenderItem -> RenderItem -> Prop)
    (xs : list X) (rl : list RenderItem) :
  paired P xs rl -> length rl = (2 * length xs)%nat.
Proof. intros H. induction H; simpl; lia. Qed.

Lemma average4 (z0 z1 z2 z3 : R) :
  average [z0; z1; z2; z3] = Some ((z0 + z1 + z2 + z3) / 4).
Proof. unfold average. simpl. f_equal. lra. Qed.

Section FrameOfSegment.

Variable mat : mat3.
Variable verts : list vec3.
Variable lights_local : list (list light).

(** A quad face over valid indices yields its front item and its back item. *)
Lemma face_items_quad (i : nat) (fc : face) (ll : list light) :
  face_ok (length verts) fc ->
  nth_error lights_local i = Some ll ->
  exists front back,
    face_items mat (points_matmul verts (transpose mat))
               (screen_xs (points_matmul verts (transpose mat)))
               (screen_ys (points_matmul verts (transpose mat)))
               (all_true (points_matmul verts (transpose mat)))
               lights_local i fc
    = Some ([front; back], project_lights mat ll) /\
    is_face_pair mat verts fc front back.
Proof.
  intros [Hlen Hidx] Hll.
  destruct fc as [idxs flags]. cbn [fst] in Hlen, Hidx.
  destruct idxs as [|ia [|ib [|ic [|id [|? ?]]]]]; try discriminate.
  inversion Hidx as [|? ? Ha H1]; subst.
  inversion H1 as [|? ? Hb H2]; subst.
  inversion H2 as [|? ? Hc H3]; subst.
  inversion H3 as [|? ? Hd _]; subst.
  apply py_index_in_range in Ha, Hb, Hc, Hd.
  destruct Ha as [a Ha], Hb as [b Hb], Hc as [c Hc], Hd as [d Hd].
  pose (g := fun v => vec_matmul v (transpose mat)).
  assert (Hw : forall idx p, py_index verts idx = Some p ->
                             py_index (points_matmul verts (transpose mat)) idx
                             = Some (g p))
    by (intros; apply py_index_map_some; assumption).
  unfold face_items, all_true, screen_xs, screen_ys. cbn [all_visible].
  rewrite !(py_index_map_some _ _ _ _ (Hw _ _ Ha)),
          !(py_index_map_some _ _ _ _ (Hw _ _ Hb)),
          !(py_index_map_some _ _ _ _ (Hw _ _ Hc)),
          !(py_index_map_some _ _ _ _ (Hw _ _ Hd)).
  cbn [bind negb mapM].
  rewrite !(py_index_map_some _ _ _ _ (Hw _ _ Ha)),
          !(py_index_map_some _ _ _ _ (Hw _ _ Hb)),
          !(py_index_map_some _ _ _ _ (Hw _ _ Hc)),
          !(py_index_map_some _ _ _ _ (Hw _ _ Hd)).
  cbn [bind].
  rewrite (Hw _ _ Ha), (Hw _ _ Hb), (Hw _ _ Hc), (Hw _ _ Hd).
  cbn [bind]. rewrite average4, Hll. cbn [bind].
  do 2 eexists. split; [reflexivity|].
  exists ia, ib, ic, id, a, b, c, d.
  cbn [fst snd depth_key item_kind is_back item_points item_edge_flags
       item_lights].
  repeat split; try assumption.
Qed.

(** The face loop on quad faces, each with its light list. *)
Lemma loop_faces_quads (faces_local : list face) :
  Forall (face_ok (length verts)) faces_local ->
  forall (i : nat) (st : frame_state),
    (i + length faces_local <= length lights_local)%nat ->
    exists rl q,
      loop_faces (face_items mat (points_matmul verts (transpose mat))
                    (screen_xs (points_matmul verts (transpose mat)))
                    (screen_ys (points_matmul verts (transpose mat)))
                    (all_true (points_matmul verts (transpose mat)))
                    lights_local)
                 i faces_local st
      = Some (fst st ++ rl, snd st ++ q) /\
      paired (scene_pair mat) (map (fun fc => (verts, fc)) faces_local) rl.
Proof.
  induction 1 as [|fc faces_local Hfc _ IH]; intros i st Hi.
  - exists [], []. simpl. rewrite !app_nil_r. destruct st.
    split; [reflexivity | constructor].
  - simpl in Hi.
    destruct (nth_error lights_local i) as [ll|] eqn:Hll;
      [| apply nth_error_None in Hll; lia].
    destruct (face_items_quad i fc ll Hfc Hll) as [front [back [Hitems Hpair]]].
    cbn [loop_faces]. rewrite Hitems. cbn [bind].
    destruct (IH (S i) (append_state st ([front; back], project_lights mat ll)))
      as [rl [q [Hloop Hrl]]]; [lia|].
    rewrite Hloop. unfold append_state. cbn [fst snd].
    exists (front :: back :: rl), (project_lights mat ll ++ q).
    split.
    + rewrite <- !app_assoc. reflexivity.
    + cbn [map]. constructor; assumption.
Qed.

End FrameOfSegment.

Lemma segment_items_ok (mat : mat3) (s : segment) (st : frame_state) :
  segment_ok s ->
  exists rl q,
    segment_items mat s st = Some (fst st ++ rl, snd st ++ q) /\
    paired (scene_pair mat) (segment_faces s) rl.
Proof.
  destruct s as [[[verts edges] faces] lights]. intros [Hne [Hfaces Hlen]].
  destruct verts as [|p verts]; [contradiction|].
  unfold segment_items, segment_faces, points_matmul.
  cbn [map]. rewrite project_points_cons. cbn [length Nat.eqb map].
  apply (loop_faces_quads mat (p :: verts) lights faces Hfaces 0 st).
  lia.
Qed.

Lemma loop_segments_ok (mat : mat3) (segments : list segment) :
  Forall segment_ok segments ->
  forall st : frame_state,
  exists rl q,
    loop_segments mat segments st = Some (fst st ++ rl, snd st ++ q) /\
    paired (scene_pair mat) (scene_faces segments) rl.
Proof.
  induction 1 as [|s segments Hs _ IH]; intros st.
  - exists [], []. simpl. rewrite !app_nil_r. destruct st.
    split; [reflexivity | constructor].
  - destruct (segment_items_ok mat s st Hs) as [rl1 [q1 [H1 P1]]].
    destruct (IH (fst st ++ rl1, snd st ++ q1)) as [rl2 [q2 [H2 P2]]].
    exists (rl1 ++ rl2), (q1 ++ q2).
    cbn [loop_segments]. rewrite H1. cbn [bind]. rewrite H2. cbn [fst snd].
    split.
    + rewrite <- !app_assoc. reflexivity.
    + unfold scene_faces. cbn [flat_map]. apply paired_app; assumption.
Qed.

(** Every frame over well-formed segments: two items per face, front then
    back, and a sorted list after the sort. *)
Lemma render_frame_ok (mat : mat3) (segments : list segment) :
  Forall segment_ok segments ->
  exists rl q,
    build_render_list mat segments = Some (rl, q) /\
    paired (scene_pair mat) (scene_faces segments) rl /\
    length rl = (2 * total_face_count segments)%nat /\
    render_frame mat segments = Some (sort_by_depth rl, q) /\
    Permutation rl (sort_by_depth rl) /\
    non_decreasing (sort_by_depth rl).
Proof.
  intros Hok.
  destruct (loop_segments_ok mat segments Hok ([], [])) as [rl [q [H P]]].
  cbn [fst snd app] in H.
  exists rl, q. unfold render_frame, build_render_list. rewrite H.
  repeat split.
  - exact P.
  - apply (paired_length _ _ _ P).
  - apply sort_by_depth_perm.
  - apply sort_by_depth_sorted.
Qed.

(** ** Faces of a built segment index its vertex array *)

Lemma ring_faces_ok (n_rings : Z) (n_verts : nat) (i : Z) :
  (1 <= i)%Z -> (4 * (i + 1) <= Z.of_nat n_verts)%Z ->
  Forall (face_ok n_verts) (ring_faces n_rings i).
Proof.
  intros Hi Hn. unfold ring_faces, face_ok, points_per_ring.
  change (range (Z.to_nat 4)) with [0; 1; 2; 3]%Z. cbn [map fst].
  repeat constructor; cbn; lia.
Qed.

Lemma side_faces_ok (n : nat) : Forall (face_ok (4 * S n)) (side_faces n).
Proof.
  unfold side_faces. apply Forall_flat_map, Forall_forall.
  intros i Hi. apply in_map_iff in Hi. destruct Hi as [k [<- Hk]].
  apply in_seq in Hk. apply ring_faces_ok; lia.
Qed.

Lemma built_faces_ok (n : nat) :
  Forall (face_ok (4 * S n))
         (side_faces n ++ [start_cap; end_cap (Z.of_nat (S n))]).
Proof.
  apply Forall_app. split; [apply side_faces_ok|].
  unfold start_cap, end_cap, face_ok. cbn [fst].
  repeat constructor; cbn [length]; lia.
Qed.

(** What the builder returns for [subdivs >= 0], with the facts the callers
    rely on. *)
Lemma make_curved_beveled_segment_ok
    (angle_center angle_span r_inner r_outer height : R)
    (subdivs : Z) (bevel : R) :
  (0 <= subdivs)%Z ->
  exists verts faces,
    make_curved_beveled_segment angle_center angle_span r_inner r_outer height
                                subdivs bevel = Some (verts, [], faces) /\
    length verts = (4 * S (Z.to_nat subdivs))%nat /\
    length faces = (4 * Z.to_nat subdivs + 2)%nat /\
    Forall (face_ok (length verts)) faces.
Proof.
  intros Hs.
  destruct (make_curved_beveled_segment_eq angle_center angle_span r_inner
              r_outer height subdivs bevel Hs) as [thetas [Hlen Heq]].
  do 2 eexists. split; [exact Heq|].
  assert (Hv : length (flat_map
                         (ring_verts [r_inner; r_outer; r_outer; r_inner]
                            [- height / 2; - height / 2; height / 2; height / 2])
                         thetas) = (4 * S (Z.to_nat subdivs))%nat).
  { rewrite (length_flat_map_const _ 4) by apply length_ring_verts.
    rewrite Hlen. reflexivity. }
  split; [exact Hv|]. split.
  - rewrite length_app, length_side_faces. simpl length. lia.
  - rewrite Hv. apply built_faces_ok.
Qed.

(** ** Light scattering *)

Lemma sample_point_on_quad_some (verts : list vec3) (fc : face) (u v : R) :
  face_ok (length verts) fc ->
  exists p, sample_point_on_quad verts (fst fc) u v = Some p.
Proof.
  intros [Hlen Hidx]. destruct fc as [idxs flags]. cbn [fst] in *.
  destruct idxs as [|ia [|ib [|ic [|id [|? ?]]]]]; try discriminate.
  inversion Hidx as [|? ? Ha H1]; subst.
  inversion H1 as [|? ? Hb H2]; subst.
  inversion H2 as [|? ? Hc H3]; subst.
  inversion H3 as [|? ? Hd _]; subst.
  apply py_index_in_range in Ha, Hb, Hc, Hd.
  destruct Ha as [a Ha], Hb as [b Hb], Hc as [c Hc], Hd as [d Hd].
  unfold sample_point_on_quad. simpl. rewrite Ha, Hb, Hc, Hd. simpl. eauto.
Qed.

Lemma extend_at_some {A : Type} (l : list (list A)) (i : nat) (extra : list A) :
  (i < length l)%nat ->
  exists l', extend_at l i extra = Some l' /\ length l' = length l.
Proof.
  revert i. induction l as [|x l IH]; intros i Hi; simpl in Hi; [lia|].
  destruct i as [|i]; simpl.
  - eexists. split; reflexivity.
  - destruct (IH i) as [l' [-> Hl]]; [lia|].
    eexists. split; [reflexivity|]. simpl. lia.
Qed.

Section Scatter.

Variables (v : list vec3) (f : list face).
Hypothesis faces_ok : Forall (face_ok (length v)) f.

Lemma scatter_step_some (face_lights : list (list light)) (d : light_draw) :
  f <> [] ->
  length face_lights = length f ->
  exists face_lights',
    scatter_step v f (Some face_lights) d = Some face_lights' /\
    length face_lights' = length f.
Proof.
  intros Hne Hlen. unfold scatter_step. cbn [bind].
  assert (Hpick : (d_pick d mod length f < length f)%nat).
  { apply Nat.mod_upper_bound. destruct f; [contradiction | discriminate]. }
  destruct (nth_error f (d_pick d mod length f)) as [fc|] eqn:Hfc;
    [| apply nth_error_None in Hfc; lia].
  cbn [bind]. unfold generate_lights_for_face. cbn [mapM].
  assert (Hok : face_ok (length v) fc).
  { apply (proj1 (Forall_forall _ _) faces_ok). eapply nth_error_In. exact Hfc. }
  destruct (sample_point_on_quad_some v fc (d_u d) (d_v d) Hok) as [p ->].
  cbn [bind].
  destruct (extend_at_some face_lights (d_pick d mod length f)
              [(p, if Rlt_dec (d_coin d) (1 / 10)
                   then uniform 3 8 (d_frac d)
                   else uniform (15 / 100) (25 / 10) (d_frac d), d_color d)])
    as [l' [-> Hl']]; [lia|].
  exists l'. split; [reflexivity | lia].
Qed.

Lemma scatter_lights_some (draws : list light_draw) :
  exists face_lights,
    scatter_lights v f draws = Some face_lights /\
    length face_lights = length f.
Proof.
  unfold scatter_lights.
  assert (Hcase : f = [] \/ f <> [])
    by (clear; destruct f; [left; reflexivity | right; discriminate]).
  destruct Hcase as [Hnil | Hne].
  - rewrite Hnil. exists []. split; reflexivity.
  - replace ((0 <? length f) && (0 <? LIGHTS_PER_SEGMENT))%nat with true.
    2: { symmetry. apply andb_true_iff. split; [|reflexivity].
         apply Nat.ltb_lt. clear - Hne. destruct f; [contradiction | simpl; lia]. }
    assert (Hinit : length (map (fun _ : face => @nil light) f) = length f)
      by apply length_map.
    revert Hinit. generalize (map (fun _ : face => @nil light) f).
    induction draws as [|d draws IH]; intros fl Hfl.
    + exists fl. split; [reflexivity | exact Hfl].
    + cbn [fold_left].
      destruct (scatter_step_some fl d Hne Hfl) as [fl' [-> Hfl']].
      apply IH. exact Hfl'.
Qed.

End Scatter.

(** ** The scene of [main] *)

Lemma build_segment_ok (rng : nat -> nat -> light_draw) (i : nat) :
  exists s,
    build_segment rng i = Some s /\
    segment_ok s /\
    length (segment_faces s) = 26%nat.
Proof.
  unfold build_segment.
  destruct (make_curved_beveled_segment_ok
              (ARC_START + ARC_SPAN / INR N_SEGMENTS * (INR i + 5 / 10))
              ANGLE_SPAN R_INNER R_OUTER SEG_HEIGHT SUBDIVISIONS BEVEL_SIZE)
    as [verts [faces [-> [Hv [Hf Hok]]]]]; [unfold SUBDIVISIONS; lia|].
  cbn [bind].
  destruct (scatter_lights_some verts faces Hok
              (map (rng i) (seq 0 LIGHTS_PER_SEGMENT))) as [fl [-> Hfl]].
  cbn [bind]. eexists. split; [reflexivity|]. split.
  - split; [|split; assumption].
    intros ->. simpl in Hv. lia.
  - unfold segment_faces. rewrite length_map, Hf. reflexivity.
Qed.

Lemma mapM_some {A B : Type} (f : A -> option B) (P : B -> Prop) (l : list A) :
  (forall a, exists b, f a = Some b /\ P b) ->
  exists bs, mapM f l = Some bs /\ Forall P bs /\ length bs = length l.
Proof.
  intros Hf. induction l as [|a l [bs [Hbs [HP Hlen]]]].
  - exists []. repeat split. constructor.
  - destruct (Hf a) as [b [Hb Pb]].
    exists (b :: bs). cbn [mapM]. rewrite Hb, Hbs. cbn [bind].
    repeat split; [constructor; assumption | simpl; lia].
Qed.

Lemma length_flat_map_Forall {A B : Type} (g : A -> list B) (c : nat) (l : list A) :
  Forall (fun a => length (g a) = c) l ->
  length (flat_map g l) = (c * length l)%nat.
Proof.
  induction 1 as [|a l Ha _ IH]; simpl.
  - lia.
  - rewrite length_app, Ha, IH. lia.
Qed.

Lemma build_segments_ok (rng : nat -> nat -> light_draw) :
  exists segments,
    build_segments rng = Some segments /\
    Forall segment_ok segments /\
    length segments = 12%nat /\
    total_face_count segments = 312%nat.
Proof.
  destruct (mapM_some (build_segment rng)
              (fun s => segment_ok s /\ length (segment_faces s) = 26%nat)
              (seq 0 N_SEGMENTS) (build_segment_ok rng))
    as [segments [Hb [HP Hlen]]].
  rewrite length_seq in Hlen.
  exists segments. split; [exact Hb|]. split; [|split].
  - eapply Forall_impl; [|exact HP]. intros s Hs. apply Hs.
  - exact Hlen.
  - unfold total_face_count, scene_faces.
    rewrite (length_flat_map_Forall _ 26).
    + rewrite Hlen. reflexivity.
    + eapply Forall_impl; [|exact HP]. intros s Hs. apply Hs.
Qed.

(** C10: for [subdivs >= 1] every vertex index of every face the builder
    returns lies in [[0, 4 * (subdivs + 1))], the length of the returned
    vertex array; hence the lookup of every face index in the vertex array
    succeeds, light sampling on every face returns a point, and the
    per-frame loop over the segment's faces completes for every matrix. *)
Theorem segment_face_indices_in_range
    (angle_center angle_span r_inner r_outer height : R)
    (subdivs : Z) (bevel : R) :
  (1 <= subdivs)%Z ->
  exists verts faces,
    make_curved_beveled_segment angle_center angle_span r_inner r_outer height
                                subdivs bevel = Some (verts, [], faces) /\
    Z.of_nat (length verts) = (4 * (subdivs + 1))%Z /\
    Forall (fun fc : face =>
              Forall (fun idx => (0 <= idx < 4 * (subdivs + 1))%Z) (fst fc))
           faces /\
    (forall fc idx, In fc faces -> In idx (fst fc) ->
                    exists p, py_index verts idx = Some p) /\
    (forall fc u v, In fc faces ->
                    exists p, sample_point_on_quad verts (fst fc) u v = Some p) /\
    (forall mat lights st,
        length lights = length faces ->
        exists st', segment_items mat (verts, [], faces, lights) st = Some st').
Proof.
  intros Hs.
  destruct (make_curved_beveled_segment_ok angle_center angle_span r_inner
              r_outer height subdivs bevel) as [verts [faces [Heq [Hv [Hf Hok]]]]];
    [lia|].
  assert (Hvz : Z.of_nat (length verts) = (4 * (subdivs + 1))%Z) by lia.
  exists verts, faces. split; [exact Heq|]. split; [exact Hvz|].
  split; [|split; [|split]].
  - eapply Forall_impl; [|exact Hok]. intros fc [_ Hidx].
    rewrite <- Hvz. exact Hidx.
  - intros fc idx Hfc Hidx. apply py_index_in_range.
    destruct (proj1 (Forall_forall _ _) Hok fc Hfc) as [_ Hin].
    exact (proj1 (Forall_forall _ _) Hin idx Hidx).
  - intros fc u v Hfc. apply sample_point_on_quad_some.
    exact (proj1 (Forall_forall _ _) Hok fc Hfc).
  - intros mat lights st Hl.
    destruct (segment_items_ok mat (verts, [], faces, lights) st)
      as [rl [q [Hitems _]]]; [|eauto].
    split; [|split; assumption].
    intros ->. simpl in Hv. lia.
Qed.

Lemma segment_face_indices_in_range_witness :
  exists verts faces,
    make_curved_beveled_segment 0 (radians 27) R_INNER R_OUTER SEG_HEIGHT
                                6 BEVEL_SIZE = Some (verts, [], faces) /\
    length verts = 28%nat /\
    Forall (fun fc : face => Forall (fun idx => (0 <= idx < 28)%Z) (fst fc))
           faces.
Proof.
  destruct (segment_face_indices_in_range 0 (radians 27) R_INNER R_OUTER
              SEG_HEIGHT 6 BEVEL_SIZE) as [verts [faces [Heq [Hv [Hr _]]]]].
  - lia.
  - exists verts, faces. split; [exact Heq|]. split; [lia | exact Hr].
Defined.

(** C1: in every frame, whatever the frame number, the view angles and the
    light draws, the render list built over the twelve segments of [main]
    holds, for each face in order, a front item whose depth key is the mean
    of the transformed Z of the face's four vertices followed by a back item
    whose depth key is that mean minus 1e-4; it has [2 * total_face_count]
    entries (624), no face is skipped since the projection mask is [true]
    throughout, and the sorted list is a permutation of it with
    non-decreasing depth keys. *)
Theorem render_list_two_items_per_face
    (rng : nat -> nat -> light_draw) (frame : nat) (view_yaw view_pitch : R) :
  let mat := frame_matrix frame view_yaw view_pitch in
  exists segments rl q,
    build_segments rng = Some segments /\
    build_render_list mat segments = Some (rl, q) /\
    paired (scene_pair mat) (scene_faces segments) rl /\
    length rl = (2 * total_face_count segments)%nat /\
    total_face_count segments = 312%nat /\
    (forall pts, Forall (fun m => m = true) (snd (fst (project_points pts)))) /\
    render_frame mat segments = Some (sort_by_depth rl, q) /\
    Permutation rl (sort_by_depth rl) /\
    non_decreasing (sort_by_depth rl).
Proof.
  intros mat.
  destruct (build_segments_ok rng) as [segments [Hb [Hok [_ Hcount]]]].
  destruct (render_frame_ok mat segments Hok)
    as [rl [q [Hrl [Hp [Hlen [Hframe [Hperm Hsorted]]]]]]].
  exists segments, rl, q.
  repeat split; try assumption.
  intros pts. apply project_points_mask.
Qed.

(** * Further properties *)

(** ** The builder on every subdivision count *)

(** The builder as a function of the ring angles. *)
Lemma make_curved_beveled_segment_unfold
    (angle_center angle_span r_inner r_outer height : R)
    (subdivs : Z) (bevel : R) :
  make_curved_beveled_segment angle_center angle_span r_inner r_outer height
                              subdivs bevel
  = (thetas <- linspace (angle_center - angle_span * (5 / 10))
                        (angle_center + angle_span * (5 / 10)) (subdivs + 1) ;;
     Some (flat_map (ring_verts [r_inner; r_outer; r_outer; r_inner]
                       [- height / 2; - height / 2; height / 2; height / 2])
                    thetas,
           [],
           flat_map (faces_at (Z.of_nat (length thetas)))
                    (range (length thetas))
           ++ [start_cap; end_cap (Z.of_nat (length thetas))])).
Proof.
  unfold make_curved_beveled_segment.
  destruct (linspace _ _ _) as [thetas|]; [|reflexivity].
  unfold bind, enumerate, range. rewrite fold_segment_step.
  cbn [fst snd]. rewrite !app_nil_l, <- app_assoc. reflexivity.
Qed.

Lemma linspace_length (start stop : R) (num : Z) (thetas : list R) :
  linspace start stop num = Some thetas ->
  (0 <= num)%Z /\ length thetas = Z.to_nat num.
Proof.
  unfold linspace. destruct (Z.ltb_spec num 0) as [Hneg | Hpos];
    [discriminate|].
  intros Heq. injection Heq as <-. split; [lia|].
  rewrite length_map, length_range. reflexivity.
Qed.

Lemma linspace_none (start stop : R) (num : Z) :
  linspace start stop num = None <-> (num < 0)%Z.
Proof.
  unfold linspace. destruct (Z.ltb_spec num 0); split; intros; try lia;
    [reflexivity | discriminate].
Qed.

Lemma length_faces_at_range (n_rings : Z) (k : nat) :
  length (flat_map (faces_at n_rings) (range k)) = (4 * (k - 1))%nat.
Proof.
  unfold range. destruct k as [|k]; [reflexivity|].
  rewrite <- cons_seq. cbn [map flat_map].
  change (faces_at n_rings (Z.of_nat 0)) with (@nil face).
  rewrite app_nil_l, flat_map_faces_at_positive by lia.
  rewrite (length_flat_map_const _ 4) by apply length_ring_faces.
  rewrite length_map, length_seq. lia.
Qed.

(** X1: the builder raises exactly when [subdivs < -1] (a negative sample
    count for [np.linspace]); whenever it returns, the edge list is empty,
    there are [4 * (subdivs + 1)] vertices and [4 * max(0, subdivs) + 2]
    faces, so that [subdivs = 0] gives one ring with the two caps and
    [subdivs = -1] gives the two caps over no vertex at all. *)
Theorem builder_result_on_every_count
    (angle_center angle_span r_inner r_outer height : R)
    (subdivs : Z) (bevel : R) :
  (make_curved_beveled_segment angle_center angle_span r_inner r_outer height
                               subdivs bevel = None <-> (subdivs < -1)%Z) /\
  (forall verts edges faces,
     make_curved_beveled_segment angle_center angle_span r_inner r_outer height
                                 subdivs bevel = Some (verts, edges, faces) ->
     edges = [] /\
     Z.of_nat (length verts) = (4 * (subdivs + 1))%Z /\
     Z.of_nat (length faces) = (4 * Z.max 0 subdivs + 2)%Z).
Proof.
  rewrite make_curved_beveled_segment_unfold.
  destruct (linspace _ _ _) as [thetas|] eqn:E; cbn [bind].
  - apply linspace_length in E. destruct E as [Hnum Hlen]. split.
    + split; [discriminate | lia].
    + intros verts edges faces H. injection H as <- <- <-.
      split; [reflexivity|]. split.
      * rewrite (length_flat_map_const _ 4) by apply length_ring_verts. lia.
      * rewrite length_app, length_faces_at_range. cbn [length]. lia.
  - apply linspace_none in E. split.
    + split; [lia | reflexivity].
    + discriminate.
Qed.

Lemma builder_result_on_every_count_witness :
  exists verts faces,
    make_curved_beveled_segment 0 1 1 2 1 0 0 = Some (verts, [], faces) /\
    length verts = 4%nat /\ length faces = 2%nat.
Proof.
  destruct (make_curved_beveled_segment 0 1 1 2 1 0 0)
    as [[[verts edges] faces]|] eqn:E.
  - destruct (proj2 (builder_result_on_every_count 0 1 1 2 1 0 0)
                verts edges faces E) as [-> [Hv Hf]].
    exists verts, faces. split; [reflexivity|]. split; lia.
  - exfalso. apply (proj1 (builder_result_on_every_count 0 1 1 2 1 0 0)) in E.
    lia.
Defined.

(** ** Where the vertices are *)

Lemma nth_error_range (n k : nat) :
  (k < n)%nat -> nth_error (range n) k = Some (Z.of_nat k).
Proof.
  intros H. unfold range. rewrite nth_error_map, nth_error_seq.
  destruct (Nat.ltb_spec k n); [reflexivity | lia].
Qed.

(** Sample [i] of [np.linspace] over [subdivs + 1] points, [subdivs >= 1]. *)
Lemma linspace_nth (start stop : R) (subdivs i : Z) :
  (1 <= subdivs)%Z -> (0 <= i <= subdivs)%Z ->
  exists thetas,
    linspace start stop (subdivs + 1) = Some thetas /\
    length thetas = Z.to_nat (subdivs + 1) /\
    nth_error thetas (Z.to_nat i)
    = Some (start + IZR i * ((stop - start) / IZR subdivs)).
Proof.
  intros Hs Hi. unfold linspace.
  destruct (Z.ltb_spec (subdivs + 1) 0); [lia|].
  eexists. split; [reflexivity|]. split.
  - rewrite length_map, length_range. reflexivity.
  - rewrite nth_error_map, nth_error_range by lia. cbn [option_map].
    rewrite Z2Nat.id by lia. f_equal.
    replace (subdivs + 1 - 1)%Z with subdivs by lia.
    assert (Hnz : IZR subdivs <> 0) by (apply not_0_IZR; lia).
    destruct (Z.ltb_spec 1 (subdivs + 1)); [|lia].
    destruct (Z.ltb_spec 0 subdivs); [|lia].
    destruct (Z.eqb_spec i subdivs) as [-> | Hne]; cbn [andb].
    + field. exact Hnz.
    + ring.
Qed.

(** X2: for [subdivs >= 1], vertex [4 * i + j] of the returned array is
    corner [j] of the cross-section (inner-bottom, outer-bottom, outer-top,
    inner-top) placed at the angle of ring [i]; the ring angles are evenly
    spaced from [angle_center - angle_span / 2] to
    [angle_center + angle_span / 2]. *)
Theorem segment_vertex_positions
    (angle_center angle_span r_inner r_outer height : R)
    (subdivs : Z) (bevel : R) :
  (1 <= subdivs)%Z ->
  exists verts faces,
    make_curved_beveled_segment angle_center angle_span r_inner r_outer height
                                subdivs bevel = Some (verts, [], faces) /\
    ring_angle angle_center angle_span subdivs 0
    = angle_center - angle_span / 2 /\
    ring_angle angle_center angle_span subdivs subdivs
    = angle_center + angle_span / 2 /\
    forall i j, (0 <= i <= subdivs)%Z -> (0 <= j < 4)%Z ->
      let theta := ring_angle angle_center angle_span subdivs i in
      let r := nth (Z.to_nat j) [r_inner; r_outer; r_outer; r_inner] 0 in
      let z := nth (Z.to_nat j)
                   [- height / 2; - height / 2; height / 2; height / 2] 0 in
      nth_error verts (Z.to_nat (4 * i + j))
      = Some (mkVec (r * cos theta) (r * sin theta) z).
Proof.
  intros Hs.
  assert (Hnz : IZR subdivs <> 0) by (apply not_0_IZR; lia).
  rewrite make_curved_beveled_segment_unfold.
  destruct (linspace_nth (angle_center - angle_span * (5 / 10))
              (angle_center + angle_span * (5 / 10)) subdivs 0 Hs)
    as [thetas [Hlin [Hlen _]]]; [lia|].
  rewrite Hlin. cbn [bind]. do 2 eexists. split; [reflexivity|].
  split; [unfold ring_angle; field; exact Hnz|].
  split; [unfold ring_angle; field; exact Hnz|].
  intros i j Hi Hj.
  set (theta := ring_angle angle_center angle_span subdivs i).
  destruct (linspace_nth (angle_center - angle_span * (5 / 10))
              (angle_center + angle_span * (5 / 10)) subdivs i Hs Hi)
    as [thetas' [Hlin' [_ Hnth]]].
  rewrite Hlin in Hlin'. injection Hlin' as <-.
  replace (Z.to_nat (4 * i + j)) with (4 * Z.to_nat i + Z.to_nat j)%nat by lia.
  rewrite (nth_error_flat_map_const _ 4 _ _ _ _ (length_ring_verts _ _) Hnth)
    by lia.
  unfold ring_verts, points_per_ring.
  rewrite nth_error_map, nth_error_range by (simpl; lia).
  cbn [option_map]. rewrite Z2Nat.id by lia.
  replace (angle_center - angle_span * (5 / 10)
           + IZR i * ((angle_center + angle_span * (5 / 10)
                       - (angle_center - angle_span * (5 / 10))) / IZR subdivs))
    with theta by (unfold theta, ring_angle; field; exact Hnz).
  reflexivity.
Qed.

Lemma segment_vertex_positions_witness :
  exists verts faces,
    make_curved_beveled_segment 0 2 1 3 4 1 0 = Some (verts, [], faces) /\
    nth_error verts 5
    = Some (mkVec (3 * cos (ring_angle 0 2 1 1)) (3 * sin (ring_angle 0 2 1 1))
                  (- 4 / 2)).
Proof.
  destruct (segment_vertex_positions 0 2 1 3 4 1 0)
    as [verts [faces [Heq [_ [_ Hpos]]]]]; [lia|].
  exists verts, faces. split; [exact Heq|].
  apply (Hpos 1%Z 1%Z); lia.
Defined.

Lemma In_ring_verts (rs zs : list R) (theta : R) (p : vec3) :
  In p (ring_verts rs zs theta) ->
  exists j, (j < 4)%nat /\
            p = mkVec (nth j rs 0 * cos theta) (nth j rs 0 * sin theta)
                      (nth j zs 0).
Proof.
  unfold ring_verts, points_per_ring.
  change (range (Z.to_nat 4)) with [0; 1; 2; 3]%Z. cbn [map In].
  intros [<- | [<- | [<- | [<- | []]]]];
    [exists 0%nat | exists 1%nat | exists 2%nat | exists 3%nat];
    (split; [lia | reflexivity]).
Qed.

Lemma built_vertex_on_rectangle
    (angle_center angle_span r_inner r_outer height : R)
    (subdivs : Z) (bevel : R) (verts : list vec3) (edges : list (Z * Z))
    (faces : list face) (p : vec3) :
  make_curved_beveled_segment angle_center angle_span r_inner r_outer height
                              subdivs bevel = Some (verts, edges, faces) ->
  In p verts ->
  (vx p * vx p + vy p * vy p = r_inner * r_inner \/
   vx p * vx p + vy p * vy p = r_outer * r_outer) /\
  (vz p = - height / 2 \/ vz p = height / 2).
Proof.
  rewrite make_curved_beveled_segment_unfold.
  destruct (linspace _ _ _) as [thetas|]; [|discriminate].
  cbn [bind]. intros H Hp. injection H as <- _ _.
  apply in_flat_map in Hp. destruct Hp as [theta [_ Hp]].
  apply In_ring_verts in Hp. destruct Hp as [j [Hj ->]].
  cbn [vx vy vz].
  assert (Hr : forall r, r * cos theta * (r * cos theta)
                         + r * sin theta * (r * sin theta) = r * r)
    by (intros r; generalize (cos2_sin2 theta); intros; nra).
  rewrite Hr.
  destruct j as [|[|[|[|j]]]]; [| | | | lia]; cbn [nth]; tauto.
Qed.

(** X3: whatever the arguments, every vertex the builder returns lies on
    the rectangular cross-section: its distance from the Z axis is
    [|r_inner|] or [|r_outer|] and its height is [-height / 2] or
    [height / 2]; [bevel] cuts no corner. *)
Theorem segment_vertices_on_rectangle
    (angle_center angle_span r_inner r_outer height : R)
    (subdivs : Z) (bevel : R) (verts : list vec3) (edges : list (Z * Z))
    (faces : list face) (p : vec3) :
  make_curved_beveled_segment angle_center angle_span r_inner r_outer height
                              subdivs bevel = Some (verts, edges, faces) ->
  In p verts ->
  (vx p * vx p + vy p * vy p = r_inner * r_inner \/
   vx p * vx p + vy p * vy p = r_outer * r_outer) /\
  (vz p = - height / 2 \/ vz p = height / 2).
Proof.
  apply built_vertex_on_rectangle.
Qed.

Lemma segment_vertices_on_rectangle_witness :
  exists verts edges faces p,
    make_curved_beveled_segment 0 2 1 3 4 1 0 = Some (verts, edges, faces) /\
    In p verts /\
    (vx p * vx p + vy p * vy p = 1 * 1 \/ vx p * vx p + vy p * vy p = 3 * 3) /\
    (vz p = - 4 / 2 \/ vz p = 4 / 2).
Proof.
  destruct (make_curved_beveled_segment_ok 0 2 1 3 4 1 0)
    as [verts [faces [Heq [Hv _]]]]; [lia|].
  destruct verts as [|p verts]; [discriminate|].
  exists (p :: verts), [], faces, p.
  split; [exact Heq|]. split; [left; reflexivity|].
  apply (segment_vertices_on_rectangle 0 2 1 3 4 1 0 (p :: verts) [] faces p Heq).
  left. reflexivity.
Defined.

(** ** Segments around the ring are congruent *)

Lemma linspace_shift (start stop delta : R) (num : Z) :
  linspace (start + delta) (stop + delta) num
  = option_map (map (fun theta => theta + delta)) (linspace start stop num).
Proof.
  unfold linspace. destruct (num <? 0)%Z; [reflexivity|].
  cbn [option_map]. rewrite map_map. f_equal. apply map_ext. intros i.
  replace (stop + delta - (start + delta)) with (stop - start) by ring.
  destruct ((1 <? num) && (i =? num - 1))%Z; [reflexivity|].
  destruct (0 <? num - 1)%Z; ring.
Qed.

Lemma ring_verts_shift (rs zs : list R) (theta delta : R) :
  ring_verts rs zs (theta + delta) = rotate_z delta (ring_verts rs zs theta).
Proof.
  unfold ring_verts, rotate_z, points_matmul. rewrite map_map.
  apply map_ext. intros j.
  cbv [vec_matmul transpose rotation_matrix_z dot col0 col1 col2
       row0 row1 row2 vx vy vz].
  rewrite cos_plus, sin_plus. f_equal; ring.
Qed.

Lemma rotate_z_flat_map {X : Type} (g : X -> list vec3) (delta : R) (l : list X) :
  rotate_z delta (flat_map g l) = flat_map (fun x => rotate_z delta (g x)) l.
Proof.
  unfold rotate_z, points_matmul.
  induction l as [|x l IH]; [reflexivity|].
  cbn [flat_map]. rewrite map_app, IH. reflexivity.
Qed.

(** X4: moving [angle_center] by [delta] rotates the returned vertices
    about the Z axis by [delta] and changes neither the edge list nor the
    faces and their flags: all segments of a ring are copies of one. *)
Theorem segment_rotates_with_angle_center
    (angle_center angle_span r_inner r_outer height : R)
    (subdivs : Z) (bevel delta : R) :
  make_curved_beveled_segment (angle_center + delta) angle_span
                              r_inner r_outer height subdivs bevel
  = option_map (fun vef : list vec3 * list (Z * Z) * list face =>
                  let '(verts, edges, faces) := vef in
                  (rotate_z delta verts, edges, faces))
               (make_curved_beveled_segment angle_center angle_span
                                            r_inner r_outer height subdivs bevel).
Proof.
  rewrite !make_curved_beveled_segment_unfold.
  replace (angle_center + delta - angle_span * (5 / 10))
    with (angle_center - angle_span * (5 / 10) + delta) by ring.
  replace (angle_center + delta + angle_span * (5 / 10))
    with (angle_center + angle_span * (5 / 10) + delta) by ring.
  rewrite linspace_shift.
  destruct (linspace _ _ _) as [thetas|]; [|reflexivity].
  cbn [option_map bind]. rewrite length_map, rotate_z_flat_map.
  do 3 f_equal. rewrite flat_map_concat_map, map_map, <- flat_map_concat_map.
  rewrite !flat_map_concat_map. f_equal. apply map_ext. intros theta.
  apply ring_verts_shift.
Qed.

(** ** The mesh of a segment *)

Lemma ring_faces_side_faces (n_rings i : Z) :
  ring_faces n_rings i
  = [side_face n_rings i 0; side_face n_rings i 1;
     side_face n_rings i 2; side_face n_rings i 3].
Proof. reflexivity. Qed.

(** The faces of a built segment, one by one. *)
Lemma In_built_faces (n : nat) (fc : face) :
  In fc (side_faces n ++ [start_cap; end_cap (Z.of_nat (S n))]) <->
  (exists i j, (1 <= i <= Z.of_nat n)%Z /\ (0 <= j < 4)%Z /\
               fc = side_face (Z.of_nat (S n)) i j) \/
  fc = start_cap \/ fc = end_cap (Z.of_nat (S n)).
Proof.
  rewrite in_app_iff. unfold side_faces. rewrite in_flat_map.
  split.
  - intros [[i [Hi Hfc]] | [<- | [<- | []]]]; [left | tauto | tauto].
    apply in_map_iff in Hi. destruct Hi as [k [<- Hk]]. apply in_seq in Hk.
    rewrite ring_faces_side_faces in Hfc. cbn [In] in Hfc.
    destruct Hfc as [<- | [<- | [<- | [<- | []]]]];
      [exists (Z.of_nat k), 0%Z | exists (Z.of_nat k), 1%Z
       | exists (Z.of_nat k), 2%Z | exists (Z.of_nat k), 3%Z];
      (split; [lia | split; [lia | reflexivity]]).
  - intros [[i [j [Hi [Hj ->]]]] | [-> | ->]].
    + left. exists i. split.
      * apply in_map_iff. exists (Z.to_nat i). split; [lia|].
        apply in_seq. lia.
      * rewrite ring_faces_side_faces.
        assert (Hc : (j = 0 \/ j = 1 \/ j = 2 \/ j = 3)%Z) by lia.
        destruct Hc as [-> | [-> | [-> | ->]]]; cbn [In]; tauto.
    + right. left. reflexivity.
    + right. right. left. reflexivity.
Qed.

(** The flagged edges of a quad. *)
Lemma flagged_edges_quad (a b c d : Z) (f0 f1 f2 f3 : bool) :
  flagged_edges ([a; b; c; d], [f0; f1; f2; f3])
  = [((a, b), f0); ((b, c), f1); ((c, d), f2); ((d, a), f3)].
Proof. reflexivity. Qed.

Lemma side_face_cases (n_rings i j : Z) :
  (0 <= j < 4)%Z ->
  side_face n_rings i j
  = ([(i - 1) * 4 + j; i * 4 + j; i * 4 + (j + 1) mod 4;
      (i - 1) * 4 + (j + 1) mod 4]%Z,
     [true; (i =? n_rings - 1)%Z; true; (i =? 1)%Z]) /\
  (0 <= (j + 1) mod 4 < 4)%Z /\ ((j + 1) mod 4 <> j)%Z /\
  ((j < 3 -> (j + 1) mod 4 = j + 1) /\ (j = 3 -> (j + 1) mod 4 = 0))%Z.
Proof.
  intros Hj. split; [reflexivity|].
  assert (Hc : (j = 0 \/ j = 1 \/ j = 2 \/ j = 3)%Z) by lia.
  destruct Hc as [-> | [-> | [-> | ->]]]; cbn; lia.
Qed.

Lemma NoDup_four {X : Type} (a b c d : X) :
  a <> b -> a <> c -> a <> d -> b <> c -> b <> d -> c <> d ->
  NoDup [a; b; c; d].
Proof.
  intros. repeat constructor; cbn [In]; intuition congruence.
Qed.

(** X5: for [subdivs >= 0] every face the builder returns has four
    pairwise distinct vertex indices and four edge-draw flags. *)
Theorem segment_faces_are_proper_quads
    (angle_center angle_span r_inner r_outer height : R)
    (subdivs : Z) (bevel : R) :
  (0 <= subdivs)%Z ->
  exists verts faces,
    make_curved_beveled_segment angle_center angle_span r_inner r_outer height
                                subdivs bevel = Some (verts, [], faces) /\
    Forall (fun fc : face => NoDup (fst fc) /\ length (fst fc) = 4%nat /\
                             length (snd fc) = 4%nat) faces.
Proof.
  intros Hs.
  destruct (make_curved_beveled_segment_eq angle_center angle_span r_inner
              r_outer height subdivs bevel Hs) as [thetas [_ Heq]].
  do 2 eexists. split; [exact Heq|].
  apply Forall_forall. intros fc Hfc. apply In_built_faces in Hfc.
  destruct Hfc as [[i [j [Hi [Hj ->]]]] | [-> | ->]].
  - destruct (side_face_cases (Z.of_nat (S (Z.to_nat subdivs))) i j Hj)
      as [_ [Hr [Hne _]]].
    unfold side_face. cbn [fst snd length].
    split; [|split; reflexivity].
    apply NoDup_four; lia.
  - unfold start_cap. cbn [fst snd length]. split; [|split; reflexivity].
    apply NoDup_four; lia.
  - unfold end_cap. cbn [fst snd length]. split; [|split; reflexivity].
    apply NoDup_four; lia.
Qed.

Lemma segment_faces_are_proper_quads_witness :
  exists verts faces,
    make_curved_beveled_segment 0 2 1 3 4 0 0 = Some (verts, [], faces) /\
    Forall (fun fc : face => NoDup (fst fc) /\ length (fst fc) = 4%nat /\
                             length (snd fc) = 4%nat) faces.
Proof.
  apply (segment_faces_are_proper_quads 0 2 1 3 4 0 0). lia.
Defined.

(** The flag of every flagged edge of a built segment is a function of the
    unordered pair of its end points. *)
Lemma built_faces_edge_flags (n : nat) (fc : face) (e : Z * Z) (fl : bool) :
  (1 <= n)%nat ->
  In fc (side_faces n ++ [start_cap; end_cap (Z.of_nat (S n))]) ->
  In (e, fl) (flagged_edges fc) ->
  fl = mesh_edge_flag (Z.of_nat n) e /\
  fl = mesh_edge_flag (Z.of_nat n) (snd e, fst e).
Proof.
  intros Hn Hfc He. apply In_built_faces in Hfc.
  assert (Hflag : forall a b : Z,
             (Z.abs (a - b) = 4 -> mesh_edge_flag (Z.of_nat n) (a, b) = true)%Z)
    by (intros a b H; unfold mesh_edge_flag; cbn [fst snd];
        destruct (Z.eqb_spec (Z.abs (a - b)) 4); [reflexivity | contradiction]).
  assert (Hring : forall r a b : Z,
             (r * 4 <= a < r * 4 + 4 -> r * 4 <= b < r * 4 + 4 -> a <> b ->
              mesh_edge_flag (Z.of_nat n) (a, b)
              = ((r =? 0) || (r =? Z.of_nat n)))%Z).
  { intros r a b Ha Hb Hne. unfold mesh_edge_flag. cbn [fst snd].
    destruct (Z.eqb_spec (Z.abs (a - b)) 4); [lia|].
    replace (a / 4)%Z with r; [reflexivity|].
    apply Z.div_unique with (a - r * 4)%Z; lia. }
  destruct Hfc as [[i [j [Hi [Hj ->]]]] | [-> | ->]].
  - destruct (side_face_cases (Z.of_nat (S n)) i j Hj) as [_ [Hr [Hne _]]].
    unfold side_face in He. rewrite flagged_edges_quad in He. cbn [In] in He.
    replace (Z.of_nat (S n) - 1)%Z with (Z.of_nat n) in He by lia.
    destruct He as [E | [E | [E | [E | []]]]]; injection E as <- <-;
      cbn [fst snd].
    + rewrite !Hflag by lia. tauto.
    + rewrite !(Hring i) by lia.
      destruct (Z.eqb_spec i 0); [lia|]. cbn [orb]. tauto.
    + rewrite !Hflag by lia. tauto.
    + rewrite !(Hring (i - 1)%Z) by lia.
      destruct (Z.eqb_spec (i - 1) (Z.of_nat n)); [lia|]. rewrite orb_false_r.
      destruct (Z.eqb_spec i 1), (Z.eqb_spec (i - 1) 0); try lia; tauto.
  - unfold start_cap in He. rewrite flagged_edges_quad in He. cbn [In] in He.
    destruct He as [E | [E | [E | [E | []]]]]; injection E as <- <-;
      cbn [fst snd]; rewrite !(Hring 0%Z) by lia; tauto.
  - unfold end_cap in He. rewrite flagged_edges_quad in He. cbn [In] in He.
    replace (Z.of_nat (S n) - 1)%Z with (Z.of_nat n) in He by lia.
    destruct He as [E | [E | [E | [E | []]]]]; injection E as <- <-;
      cbn [fst snd]; rewrite !(Hring (Z.of_nat n)) by lia;
      rewrite Z.eqb_refl, orb_true_r; tauto.
Qed.

(** X6: in a segment built with [subdivs >= 1], two flagged edges that join
    the same unordered pair of vertices, in whatever faces of the segment
    they occur, carry the same draw flag: no mesh edge is stroked by one face
    and hidden by another. *)
Theorem segment_shared_edges_agree
    (angle_center angle_span r_inner r_outer height : R)
    (subdivs : Z) (bevel : R) :
  (1 <= subdivs)%Z ->
  exists verts faces,
    make_curved_beveled_segment angle_center angle_span r_inner r_outer height
                                subdivs bevel = Some (verts, [], faces) /\
    forall fc fc' e e' fl fl',
      In fc faces -> In fc' faces ->
      In (e, fl) (flagged_edges fc) -> In (e', fl') (flagged_edges fc') ->
      same_edge e e' -> fl = fl'.
Proof.
  intros Hs.
  destruct (make_curved_beveled_segment_eq angle_center angle_span r_inner
              r_outer height subdivs bevel) as [thetas [_ Heq]]; [lia|].
  do 2 eexists. split; [exact Heq|].
  intros fc fc' e e' fl fl' Hfc Hfc' He He' Hsame.
  assert (Hn : (1 <= Z.to_nat subdivs)%nat) by lia.
  destruct (built_faces_edge_flags _ fc e fl Hn Hfc He) as [H1 _].
  destruct (built_faces_edge_flags _ fc' e' fl' Hn Hfc' He') as [H2 H3].
  destruct Hsame as [-> | ->]; congruence.
Qed.

Lemma segment_shared_edges_agree_witness :
  exists verts faces,
    make_curved_beveled_segment 0 2 1 3 4 2 0 = Some (verts, [], faces) /\
    forall fc fc' e e' fl fl',
      In fc faces -> In fc' faces ->
      In (e, fl) (flagged_edges fc) -> In (e', fl') (flagged_edges fc') ->
      same_edge e e' -> fl = fl'.
Proof.
  apply (segment_shared_edges_agree 0 2 1 3 4 2 0). lia.
Defined.

(** [(j + 1) % 4] and [(j + 3) % 4] at the four corners. *)
Ltac next_corner :=
  change ((0 + 3) mod 4)%Z with 3%Z;
  change ((1 + 3) mod 4)%Z with 0%Z;
  change ((2 + 3) mod 4)%Z with 1%Z;
  change ((3 + 3) mod 4)%Z with 2%Z;
  change ((0 + 1) mod 4)%Z with 1%Z;
  change ((1 + 1) mod 4)%Z with 2%Z;
  change ((2 + 1) mod 4)%Z with 3%Z;
  change ((3 + 1) mod 4)%Z with 0%Z.

(** The opposite of every directed edge of a built segment belongs to a
    face of the segment. *)
Lemma built_faces_opposite_edge (n : nat) (fc : face) (e : Z * Z) (fl : bool) :
  (1 <= n)%nat ->
  In fc (side_faces n ++ [start_cap; end_cap (Z.of_nat (S n))]) ->
  In (e, fl) (flagged_edges fc) ->
  exists fc' fl',
    In fc' (side_faces n ++ [start_cap; end_cap (Z.of_nat (S n))]) /\
    In ((snd e, fst e), fl') (flagged_edges fc').
Proof.
  intros Hn Hfc He.
  assert (Hside : forall i j, (1 <= i <= Z.of_nat n)%Z -> (0 <= j < 4)%Z ->
                    In (side_face (Z.of_nat (S n)) i j)
                       (side_faces n ++ [start_cap; end_cap (Z.of_nat (S n))]))
    by (intros i j Hi Hj; apply In_built_faces; left; exists i, j; tauto).
  assert (Hstart : In start_cap
                      (side_faces n ++ [start_cap; end_cap (Z.of_nat (S n))]))
    by (apply In_built_faces; tauto).
  assert (Hend : In (end_cap (Z.of_nat (S n)))
                    (side_faces n ++ [start_cap; end_cap (Z.of_nat (S n))]))
    by (apply In_built_faces; tauto).
  apply In_built_faces in Hfc.
  assert (HN : (Z.of_nat (S n) - 1 = Z.of_nat n)%Z) by lia.
  revert Hside Hstart Hend Hfc HN.
  generalize (Z.of_nat (S n)). intros N Hside Hstart Hend Hfc HN.
  (* an edge found in a quad, given by its position *)
  assert (Hin : forall (a b c d : Z) (f0 f1 f2 f3 : bool) (x y : Z),
             (x = a /\ y = b) \/ (x = b /\ y = c) \/
             (x = c /\ y = d) \/ (x = d /\ y = a) ->
             exists fl', In ((x, y), fl')
                            (flagged_edges ([a; b; c; d], [f0; f1; f2; f3]))).
  { intros a b c d f0 f1 f2 f3 x y H. rewrite flagged_edges_quad. cbn [In].
    destruct H as [[-> ->] | [[-> ->] | [[-> ->] | [-> ->]]]];
      eexists; eauto 6. }
  assert (Hfound : forall fc' (x y : Z),
             In fc' (side_faces n ++ [start_cap; end_cap N]) ->
             (exists fl', In ((x, y), fl') (flagged_edges fc')) ->
             exists fc'' fl',
               In fc'' (side_faces n ++ [start_cap; end_cap N]) /\
               In ((x, y), fl') (flagged_edges fc''))
    by (intros fc' x y H [fl' H']; eauto).
  destruct Hfc as [[i [j [Hi [Hj ->]]]] | [-> | ->]].
  - destruct (side_face_cases N i j Hj) as [_ [Hr [Hne [Hlt H3]]]].
    unfold side_face in He. rewrite flagged_edges_quad in He. cbn [In] in He.
    destruct He as [E | [E | [E | [E | []]]]]; injection E as <- <-;
      cbn [fst snd].
    + (* between the rings, corner j: the face before, around the section *)
      apply (Hfound (side_face N i ((j + 3) mod 4))).
      * apply Hside; [lia | apply Z.mod_pos_bound; lia].
      * apply Hin. right. right. left.
        assert (Hc : (j = 0 \/ j = 1 \/ j = 2 \/ j = 3)%Z) by lia.
        destruct Hc as [-> | [-> | [-> | ->]]]; next_corner; lia.
    + (* along ring i: the next ring step, or the end cap *)
      destruct (Z.eq_dec i (Z.of_nat n)) as [-> | Hlast].
      * apply (Hfound (end_cap N)); [exact Hend|]. apply Hin.
        assert (Hc : (j = 0 \/ j = 1 \/ j = 2 \/ j = 3)%Z) by lia.
        rewrite HN.
        destruct Hc as [-> | [-> | [-> | ->]]]; next_corner; lia.
      * apply (Hfound (side_face N (i + 1) j)); [apply Hside; lia|].
        apply Hin. right. right. right. lia.
    + (* between the rings, corner j + 1: the next face around the section *)
      apply (Hfound (side_face N i ((j + 1) mod 4))).
      * apply Hside; lia.
      * apply Hin. left. lia.
    + (* along ring i - 1: the previous ring step, or the start cap *)
      destruct (Z.eq_dec i 1) as [-> | Hfirst].
      * apply (Hfound start_cap); [exact Hstart|]. apply Hin.
        assert (Hc : (j = 0 \/ j = 1 \/ j = 2 \/ j = 3)%Z) by lia.
        destruct Hc as [-> | [-> | [-> | ->]]]; next_corner; lia.
      * apply (Hfound (side_face N (i - 1) j)); [apply Hside; lia|].
        apply Hin. right. left. lia.
  - unfold start_cap in He. rewrite flagged_edges_quad in He. cbn [In] in He.
    destruct He as [E | [E | [E | [E | []]]]]; injection E as <- <-;
      cbn [fst snd];
      [ apply (Hfound (side_face N 1 0)) | apply (Hfound (side_face N 1 1))
      | apply (Hfound (side_face N 1 2)) | apply (Hfound (side_face N 1 3)) ];
      try (apply Hside; lia); apply Hin; next_corner; lia.
  - unfold end_cap in He. rewrite flagged_edges_quad in He. cbn [In] in He.
    rewrite HN in He.
    destruct He as [E | [E | [E | [E | []]]]]; injection E as <- <-;
      cbn [fst snd];
      [ apply (Hfound (side_face N (Z.of_nat n) 2))
      | apply (Hfound (side_face N (Z.of_nat n) 1))
      | apply (Hfound (side_face N (Z.of_nat n) 0))
      | apply (Hfound (side_face N (Z.of_nat n) 3)) ];
      try (apply Hside; lia); apply Hin; next_corner; lia.
Qed.

(** X7: a segment built with [subdivs >= 1] is a closed, consistently
    wound mesh: for every edge of every face, run from [a] to [b], some face
    of the segment has the edge from [b] to [a], with the same draw flag. *)
Theorem segment_mesh_is_closed
    (angle_center angle_span r_inner r_outer height : R)
    (subdivs : Z) (bevel : R) :
  (1 <= subdivs)%Z ->
  exists verts faces,
    make_curved_beveled_segment angle_center angle_span r_inner r_outer height
                                subdivs bevel = Some (verts, [], faces) /\
    forall fc a b fl,
      In fc faces -> In ((a, b), fl) (flagged_edges fc) ->
      exists fc', In fc' faces /\ In ((b, a), fl) (flagged_edges fc').
Proof.
  intros Hs.
  destruct (make_curved_beveled_segment_eq angle_center angle_span r_inner
              r_outer height subdivs bevel) as [thetas [_ Heq]]; [lia|].
  do 2 eexists. split; [exact Heq|].
  intros fc a b fl Hfc He.
  assert (Hn : (1 <= Z.to_nat subdivs)%nat) by lia.
  destruct (built_faces_opposite_edge _ fc (a, b) fl Hn Hfc He)
    as [fc' [fl' [Hfc' He']]].
  cbn [fst snd] in He'.
  destruct (built_faces_edge_flags _ fc (a, b) fl Hn Hfc He) as [_ H1].
  destruct (built_faces_edge_flags _ fc' (b, a) fl' Hn Hfc' He') as [H2 _].
  cbn [fst snd] in H1. exists fc'. split; [exact Hfc'|].
  replace fl with fl' by congruence. exact He'.
Qed.

Lemma segment_mesh_is_closed_witness :
  exists verts faces,
    make_curved_beveled_segment 0 2 1 3 4 2 0 = Some (verts, [], faces) /\
    forall fc a b fl,
      In fc faces -> In ((a, b), fl) (flagged_edges fc) ->
      exists fc', In fc' faces /\ In ((b, a), fl) (flagged_edges fc').
Proof.
  apply (segment_mesh_is_closed 0 2 1 3 4 2 0). lia.
Defined.

(** ** The rotation is rigid *)

Lemma matmul_identity_l (a : mat3) : matmul identity3 a = a.
Proof. destruct a as [[? ? ?] [? ? ?] [? ? ?]]. mat_eq. Qed.

Lemma vec_matmul_assoc (v : vec3) (a b : mat3) :
  vec_matmul (vec_matmul v a) b = vec_matmul v (matmul a b).
Proof.
  destruct v, a as [[? ? ?] [? ? ?] [? ? ?]], b as [[? ? ?] [? ? ?] [? ? ?]].
  mat_eq.
Qed.

Lemma vec_matmul_identity3 (v : vec3) : vec_matmul v identity3 = v.
Proof. destruct v. mat_eq. Qed.

Lemma transpose_involutive (a : mat3) : transpose (transpose a) = a.
Proof. destruct a as [[? ? ?] [? ? ?] [? ? ?]]. reflexivity. Qed.

Ltac rotation_left_inverse theta :=
  cbv [rotation_matrix_x rotation_matrix_y rotation_matrix_z];
  mat_eq; generalize (cos2_sin2 theta); intros; nra.

Lemma rotation_left_inverse_matmul (a b : mat3) :
  matmul (transpose a) a = identity3 ->
  matmul (transpose b) b = identity3 ->
  matmul (transpose (matmul a b)) (matmul a b) = identity3.
Proof.
  intros Ha Hb.
  rewrite transpose_matmul, matmul_assoc, <- (matmul_assoc (transpose a)).
  rewrite Ha, matmul_identity_l. exact Hb.
Qed.

Lemma compose_rotation_left_inverse (yaw pitch spin : R) :
  matmul (transpose (compose_rotation yaw pitch spin))
         (compose_rotation yaw pitch spin) = identity3.
Proof.
  unfold compose_rotation.
  apply rotation_left_inverse_matmul; [apply rotation_left_inverse_matmul|].
  - rotation_left_inverse yaw.
  - rotation_left_inverse pitch.
  - rotation_left_inverse spin.
Qed.

Lemma compose_rotation_right_inverse (yaw pitch spin : R) :
  matmul (compose_rotation yaw pitch spin)
         (transpose (compose_rotation yaw pitch spin)) = identity3.
Proof.
  apply orthonormal_matmul; [apply orthonormal_matmul|].
  - apply rotation_matrix_y_orthonormal.
  - apply rotation_matrix_x_orthonormal.
  - apply rotation_matrix_z_orthonormal.
Qed.

(** X8: the frame transform can be undone: for the matrix [mat] of any yaw,
    pitch and spin, [(pts @ mat.T) @ mat = pts] and
    [(pts @ mat) @ mat.T = pts]. *)
Theorem rotation_round_trip (yaw pitch spin : R) (pts : list vec3) :
  let mat := compose_rotation yaw pitch spin in
  points_matmul (points_matmul pts (transpose mat)) mat = pts /\
  points_matmul (points_matmul pts mat) (transpose mat) = pts.
Proof.
  intros mat. unfold points_matmul. rewrite !map_map. split.
  - rewrite <- (map_id pts) at 2. apply map_ext. intros v.
    rewrite vec_matmul_assoc. unfold mat.
    rewrite compose_rotation_left_inverse. apply vec_matmul_identity3.
  - rewrite <- (map_id pts) at 2. apply map_ext. intros v.
    rewrite vec_matmul_assoc. unfold mat.
    rewrite compose_rotation_right_inverse. apply vec_matmul_identity3.
Qed.

Lemma dot_vec_matmul_transpose (v w : vec3) (a : mat3) :
  dot (vec_matmul v (transpose a)) (vec_matmul w (transpose a))
  = dot (vec_matmul v (matmul (transpose a) a)) w.
Proof.
  destruct v, w, a as [[? ? ?] [? ? ?] [? ? ?]].
  cbv [matmul vec_matmul transpose dot col0 col1 col2 row0 row1 row2 vx vy vz].
  ring.
Qed.

(** X9: the frame transform keeps dot products, hence lengths and angles:
    for the matrix of any yaw, pitch and spin,
    [(v @ mat.T) . (w @ mat.T) = v . w]. *)
Theorem rotation_preserves_dot (yaw pitch spin : R) (v w : vec3) :
  let mat := compose_rotation yaw pitch spin in
  dot (vec_matmul v (transpose mat)) (vec_matmul w (transpose mat)) = dot v w.
Proof.
  intros mat. rewrite dot_vec_matmul_transpose. unfold mat.
  rewrite compose_rotation_left_inverse, vec_matmul_identity3. reflexivity.
Qed.

(** ** The spin *)

Lemma rotation_matrix_z_add (a b : R) :
  rotation_matrix_z (a + b) = matmul (rotation_matrix_z a) (rotation_matrix_z b).
Proof.
  unfold rotation_matrix_z. rewrite cos_plus, sin_plus. mat_eq.
Qed.

Lemma rotation_matrix_z_period (a : R) :
  rotation_matrix_z (a + 2 * PI) = rotation_matrix_z a.
Proof.
  unfold rotation_matrix_z.
  rewrite cos_plus, sin_plus, cos_2PI, sin_2PI.
  mat_eq.
Qed.

(** X10: each frame turns the ring by [ROT_SPEED] about its own axis, on
    top of the previous frame's matrix, and 600 frames later the matrix is
    the same again: one revolution takes 600 frames. *)
Theorem frame_matrix_spin (frame : nat) (view_yaw view_pitch : R) :
  frame_matrix (S frame) view_yaw view_pitch
  = matmul (frame_matrix frame view_yaw view_pitch) (rotation_matrix_z ROT_SPEED) /\
  frame_matrix (frame + 600) view_yaw view_pitch
  = frame_matrix frame view_yaw view_pitch.
Proof.
  unfold frame_matrix, compose_rotation, frame_spin. split.
  - rewrite (matmul_assoc _ (rotation_matrix_z _) (rotation_matrix_z ROT_SPEED)).
    rewrite <- rotation_matrix_z_add. do 2 f_equal.
    rewrite S_INR. ring.
  - f_equal.
    replace (INR (frame + 600) * ROT_SPEED + BASE_AZIM)
      with (INR frame * ROT_SPEED + BASE_AZIM + 2 * PI).
    + apply rotation_matrix_z_period.
    + rewrite plus_INR. unfold ROT_SPEED.
      replace (INR 600) with 600 by (rewrite INR_IZR_INZ; reflexivity).
      field.
Qed.

(** ** The strokes of both sides *)

(** X24: painting the back of a quad strokes the same edges as painting
    its front: with the point order reversed and the flags passed through
    [reverse_edge_flags], the stroked edges are those of the front, each run
    in the opposite direction. *)
Theorem back_strokes_mirror_front {A : Type} (points_2d : list A)
    (edge_flags : list bool) :
  length points_2d = 4%nat ->
  length edge_flags = 4%nat ->
  Permutation (stroked_edges (rev points_2d) (reverse_edge_flags edge_flags))
              (map (fun e => (snd e, fst e)) (stroked_edges points_2d edge_flags)).
Proof.
  intros Hp Hf.
  destruct points_2d as [|p0 [|p1 [|p2 [|p3 [|? ?]]]]]; try discriminate.
  destruct edge_flags as [|f0 [|f1 [|f2 [|f3 [|? ?]]]]]; try discriminate.
  change (reverse_edge_flags [f0; f1; f2; f3]) with [f2; f1; f0; f3].
  change (rev [p0; p1; p2; p3]) with [p3; p2; p1; p0].
  assert (Hfront : stroked_edges [p0; p1; p2; p3] [f0; f1; f2; f3]
                   = (if f0 then [(p0, p1)] else [])
                     ++ (if f1 then [(p1, p2)] else [])
                     ++ (if f2 then [(p2, p3)] else [])
                     ++ (if f3 then [(p3, p0)] else []))
    by (destruct f0, f1, f2, f3; reflexivity).
  assert (Hback : stroked_edges [p3; p2; p1; p0] [f2; f1; f0; f3]
                  = (if f2 then [(p3, p2)] else [])
                    ++ (if f1 then [(p2, p1)] else [])
                    ++ (if f0 then [(p1, p0)] else [])
                    ++ (if f3 then [(p0, p3)] else []))
    by (destruct f0, f1, f2, f3; reflexivity).
  rewrite Hfront, Hback, !map_app.
  replace (map (fun e : A * A => (snd e, fst e)) (if f0 then [(p0, p1)] else []))
    with (if f0 then [(p1, p0)] else []) by (destruct f0; reflexivity).
  replace (map (fun e : A * A => (snd e, fst e)) (if f1 then [(p1, p2)] else []))
    with (if f1 then [(p2, p1)] else []) by (destruct f1; reflexivity).
  replace (map (fun e : A * A => (snd e, fst e)) (if f2 then [(p2, p3)] else []))
    with (if f2 then [(p3, p2)] else []) by (destruct f2; reflexivity).
  replace (map (fun e : A * A => (snd e, fst e)) (if f3 then [(p3, p0)] else []))
    with (if f3 then [(p0, p3)] else []) by (destruct f3; reflexivity).
  rewrite !app_assoc. apply Permutation_app_tail.
  rewrite <- !app_assoc.
  eapply perm_trans; [apply Permutation_app_comm|].
  rewrite (app_assoc (if f0 then [(p1, p0)] else [])).
  apply Permutation_app_tail, Permutation_app_comm.
Qed.

Lemma back_strokes_mirror_front_witness :
  Permutation
    (stroked_edges (rev [1; 2; 3; 4]%Z)
                   (reverse_edge_flags [true; false; true; false]))
    (map (fun e => (snd e, fst e))
         (stroked_edges [1; 2; 3; 4]%Z [true; false; true; false])).
Proof.
  apply (back_strokes_mirror_front [1; 2; 3; 4]%Z [true; false; true; false]);
    reflexivity.
Defined.

(** ** Paint order *)

Lemma non_decreasing_app_inv (a b : list RenderItem) (x : RenderItem) :
  non_decreasing (a ++ x :: b) ->
  Forall (fun y => depth_key x <= depth_key y) b.
Proof.
  unfold non_decreasing. induction a as [|z a IH]; cbn [app]; intros H.
  - inversion H; assumption.
  - inversion H; subst. apply IH. assumption.
Qed.

(** In the sorted list an item of smaller depth comes before one of larger
    depth. *)
Lemma sort_by_depth_order (l : list RenderItem) (x y : RenderItem) :
  In x l -> In y l -> depth_key y < depth_key x ->
  exists s1 s2 s3, sort_by_depth l = s1 ++ y :: s2 ++ x :: s3.
Proof.
  intros Hx Hy Hlt.
  pose proof (sort_by_depth_perm l) as Hperm.
  pose proof (sort_by_depth_sorted l) as Hsorted.
  apply (Permutation_in _ Hperm) in Hx, Hy.
  apply in_split in Hx. destruct Hx as [a [b Hab]].
  rewrite Hab in Hy, Hsorted |- *.
  apply in_app_or in Hy. destruct Hy as [Hy | [Hy | Hy]].
  - apply in_split in Hy. destruct Hy as [s1 [s2 ->]].
    exists s1, s2, b. rewrite <- app_assoc. reflexivity.
  - subst y. lra.
  - apply non_decreasing_app_inv in Hsorted.
    pose proof (proj1 (Forall_forall _ _) Hsorted y Hy) as Hle.
    cbn beta in Hle. lra.
Qed.

Lemma paired_nth {X : Type} (P : X -> RenderItem -> RenderItem -> Prop)
    (xs : list X) (rl : list RenderItem) :
  paired P xs rl ->
  forall k, (k < length xs)%nat ->
  exists x front back,
    nth_error xs k = Some x /\
    nth_error rl (2 * k) = Some front /\
    nth_error rl (2 * k + 1) = Some back /\
    P x front back.
Proof.
  induction 1 as [|x xs front back rl HP _ IH]; intros k Hk; cbn [length] in Hk.
  - lia.
  - destruct k as [|k].
    + exists x, front, back. repeat split. exact HP.
    + destruct (IH k) as [x' [f' [b' [H1 [H2 [H3 H4]]]]]]; [lia|].
      exists x', f', b'.
      replace (2 * S k)%nat with (S (S (2 * k))) by lia.
      replace (S (S (2 * k)) + 1)%nat with (S (S (2 * k + 1))) by lia.
      repeat split; assumption.
Qed.

(** X11: in every frame of [main], for each face the back item is painted
    before the front item of the same face: the two items built for face
    [k] are at positions [2k] and [2k + 1] of the render list, and in the
    sorted list the second stands somewhere before the first. *)
Theorem back_item_painted_before_front
    (rng : nat -> nat -> light_draw) (frame : nat) (view_yaw view_pitch : R) :
  let mat := frame_matrix frame view_yaw view_pitch in
  exists segments rl q,
    build_segments rng = Some segments /\
    build_render_list mat segments = Some (rl, q) /\
    render_frame mat segments = Some (sort_by_depth rl, q) /\
    forall k, (k < total_face_count segments)%nat ->
      exists front back s1 s2 s3,
        nth_error rl (2 * k) = Some front /\
        nth_error rl (2 * k + 1) = Some back /\
        is_back front = false /\ is_back back = true /\
        sort_by_depth rl = s1 ++ back :: s2 ++ front :: s3.
Proof.
  intros mat.
  destruct (build_segments_ok rng) as [segments [Hb [Hok _]]].
  destruct (render_frame_ok mat segments Hok)
    as [rl [q [Hrl [Hp [_ [Hframe _]]]]]].
  exists segments, rl, q. repeat split; try assumption.
  intros k Hk.
  destruct (paired_nth _ _ _ Hp k Hk) as [x [front [back [_ [Hf [Hbk HP]]]]]].
  destruct HP as [ia [ib [ic [id [a [b [c [d HP]]]]]]]].
  destruct HP as [_ [_ [_ [_ [_ [_ [Hdepth [_ [_ [Hff [Hbb _]]]]]]]]]]].
  destruct (sort_by_depth_order rl front back) as [s1 [s2 [s3 Hs]]].
  - eapply nth_error_In. exact Hf.
  - eapply nth_error_In. exact Hbk.
  - lra.
  - exists front, back, s1, s2, s3. repeat split; assumption.
Qed.

Lemma back_item_painted_before_front_witness :
  let mat := frame_matrix 0 0 0 in
  exists segments rl q,
    build_segments (fun _ _ => default_draw) = Some segments /\
    build_render_list mat segments = Some (rl, q) /\
    exists front back s1 s2 s3,
      nth_error rl 0 = Some front /\
      nth_error rl 1 = Some back /\
      sort_by_depth rl = s1 ++ back :: s2 ++ front :: s3.
Proof.
  intros mat.
  destruct (back_item_painted_before_front (fun _ _ => default_draw) 0 0 0)
    as [segments [rl [q [Hb [Hrl [_ Hk]]]]]].
  exists segments, rl, q. split; [exact Hb|]. split; [exact Hrl|].
  assert (Hcount : (0 < total_face_count segments)%nat).
  { destruct (build_segments_ok (fun _ _ => default_draw))
      as [segments' [Hb' [_ [_ Hc]]]].
    rewrite Hb in Hb'. injection Hb' as <-. lia. }
  destruct (Hk 0%nat Hcount) as [front [back [s1 [s2 [s3 [H0 [H1 [_ [_ Hs]]]]]]]]].
  exists front, back, s1, s2, s3. repeat split; assumption.
Defined.

(** ** The lights of a frame *)

Lemma combine_map_same {X Y Z' : Type} (f : X -> Y) (g : X -> Z') (l : list X) :
  combine (map f l) (map g l) = map (fun x => (f x, g x)) l.
Proof. induction l as [|x l IH]; cbn; [|rewrite IH]; reflexivity. Qed.

Lemma project_lights_map (mat : mat3) (ll : list light) :
  project_lights mat ll = map (project_light mat) ll.
Proof.
  destruct ll as [|l ll]; [reflexivity|].
  unfold project_lights, points_matmul. cbn [map].
  rewrite project_points_cons. unfold screen_xs, screen_ys.
  cbn [map combine]. destruct l as [[p size] col]. f_equal.
  rewrite !map_map, combine_map_same.
  rewrite <- (map_id ll) at 2. rewrite combine_map_same, map_map.
  apply map_ext. intros [[p' size'] col']. reflexivity.
Qed.

Lemma skipn_nth_error {X : Type} (l : list X) (i : nat) (x : X) :
  nth_error l i = Some x -> skipn i l = x :: skipn (S i) l.
Proof.
  revert i. induction l as [|y l IH]; intros [|i] H; try discriminate.
  - injection H as ->. reflexivity.
  - cbn [skipn]. apply IH. exact H.
Qed.

(** The light queue the face loop builds. *)
Lemma loop_faces_queue (mat : mat3) (verts : list vec3)
    (lights_local : list (list light)) (faces_local : list face) :
  Forall (face_ok (length verts)) faces_local ->
  forall (i : nat) (st : frame_state),
    (i + length faces_local = length lights_local)%nat ->
    exists rl,
      loop_faces (face_items mat (points_matmul verts (transpose mat))
                    (screen_xs (points_matmul verts (transpose mat)))
                    (screen_ys (points_matmul verts (transpose mat)))
                    (all_true (points_matmul verts (transpose mat)))
                    lights_local)
                 i faces_local st
      = Some (fst st ++ rl,
              snd st ++ flat_map (project_lights mat) (skipn i lights_local)).
Proof.
  induction 1 as [|fc faces_local Hfc _ IH]; intros i st Hi.
  - exists []. cbn [loop_faces length] in *.
    rewrite skipn_all2 by lia. cbn [flat_map]. rewrite !app_nil_r.
    destruct st. reflexivity.
  - cbn [length] in Hi.
    destruct (nth_error lights_local i) as [ll|] eqn:Hll;
      [| apply nth_error_None in Hll; lia].
    destruct (face_items_quad mat verts lights_local i fc ll Hfc Hll)
      as [front [back [Hitems _]]].
    cbn [loop_faces]. rewrite Hitems. cbn [bind].
    destruct (IH (S i) (append_state st ([front; back], project_lights mat ll)))
      as [rl Hloop]; [lia|].
    rewrite Hloop. unfold append_state. cbn [fst snd].
    exists (front :: back :: rl).
    rewrite (skipn_nth_error _ _ _ Hll). cbn [flat_map].
    rewrite <- !app_assoc. reflexivity.
Qed.

Lemma loop_segments_queue (mat : mat3) (segments : list segment) :
  Forall segment_ok segments ->
  forall st : frame_state,
  exists rl,
    loop_segments mat segments st
    = Some (fst st ++ rl,
            snd st ++ map (project_light mat) (scene_lights segments)).
Proof.
  induction 1 as [|s segments Hs _ IH]; intros st.
  - exists []. cbn. rewrite !app_nil_r. destruct st. reflexivity.
  - destruct s as [[[verts edges] faces] lights].
    destruct Hs as [Hne [Hfaces Hlen]].
    destruct verts as [|p verts]; [contradiction|].
    cbn [loop_segments]. unfold segment_items, points_matmul.
    cbn [map]. rewrite project_points_cons. cbn [length Nat.eqb map].
    destruct (loop_faces_queue mat (p :: verts) lights faces Hfaces 0 st)
      as [rl1 H1]; [lia|].
    unfold points_matmul in H1. cbn [map skipn] in H1.
    match goal with
    | |- context [(length (screen_xs ?l) =? 0)%nat] =>
        change (length (screen_xs l) =? 0)%nat with false
    end.
    rewrite H1. cbn [bind].
    destruct (IH (fst st ++ rl1,
                  snd st ++ flat_map (project_lights mat) lights))
      as [rl2 H2].
    rewrite H2. cbn [fst snd]. exists (rl1 ++ rl2).
    assert (Hq : flat_map (project_lights mat) lights
                 = map (project_light mat) (concat lights)).
    { rewrite flat_map_concat_map, concat_map. f_equal.
      apply map_ext. intros ll. apply project_lights_map. }
    unfold scene_lights. cbn [flat_map snd]. rewrite map_app, Hq.
    rewrite <- !app_assoc. reflexivity.
Qed.

(** ** Where the lights are placed *)

Lemma extend_at_spec {A : Type} (l : list (list A)) (i : nat) (extra : list A)
    (l' : list (list A)) :
  extend_at l i extra = Some l' ->
  length l' = length l /\
  length (concat l') = (length (concat l) + length extra)%nat /\
  forall k ll', nth_error l' k = Some ll' ->
    exists ll, nth_error l k = Some ll /\
               ((k <> i /\ ll' = ll) \/ (k = i /\ ll' = ll ++ extra)).
Proof.
  revert i l'. induction l as [|x l IH]; intros i l' H; [discriminate|].
  destruct i as [|i]; cbn [extend_at] in H.
  - injection H as <-. repeat split.
    + cbn [concat]. rewrite !length_app. lia.
    + intros [|k] ll' Hk; cbn [nth_error] in *.
      * injection Hk as <-. exists x. split; [reflexivity|]. right. tauto.
      * exists ll'. split; [exact Hk|]. left. split; [lia | reflexivity].
  - destruct (extend_at l i extra) as [r|] eqn:E; [|discriminate].
    cbn [bind] in H. injection H as <-.
    destruct (IH i r E) as [Hlen [Hcount Hnth]].
    repeat split.
    + cbn [length]. lia.
    + cbn [concat]. rewrite !length_app. lia.
    + intros [|k] ll' Hk; cbn [nth_error] in *.
      * exists ll'. split; [exact Hk|]. left. split; [lia | reflexivity].
      * destruct (Hnth k ll' Hk) as [ll [H1 [[H2 H3] | [H2 H3]]]];
          exists ll; (split; [exact H1|]); [left | right]; split;
          try assumption; lia.
Qed.

Lemma sample_point_on_quad_on_face (verts : list vec3) (fc : face) (u v : R)
    (p : vec3) (size : R) (col : color) :
  face_ok (length verts) fc ->
  0 <= u <= 1 -> 0 <= v <= 1 ->
  sample_point_on_quad verts (fst fc) u v = Some p ->
  light_on_face verts fc (p, size, col).
Proof.
  intros [Hlen Hidx] Hu Hv. destruct fc as [idxs flags]. cbn [fst] in *.
  destruct idxs as [|ia [|ib [|ic [|id [|? ?]]]]]; try discriminate.
  inversion Hidx as [|? ? Ha H1]; subst.
  inversion H1 as [|? ? Hb H2]; subst.
  inversion H2 as [|? ? Hc H3]; subst.
  inversion H3 as [|? ? Hd _]; subst.
  apply py_index_in_range in Ha, Hb, Hc, Hd.
  destruct Ha as [a Ha], Hb as [b Hb], Hc as [c Hc], Hd as [d Hd].
  unfold sample_point_on_quad. cbn [length Nat.eqb negb mapM].
  rewrite Ha, Hb, Hc, Hd. cbn [bind]. intros H. injection H as <-.
  exists ia, ib, ic, id, a, b, c, d. repeat split; try assumption.
  destruct (bilinear_weights u v Hu Hv) as [W1 [W2 [W3 [W4 W5]]]].
  exists ((1 - u) * (1 - v)), (u * (1 - v)), (u * v), ((1 - u) * v).
  repeat split; tauto.
Qed.

Section ScatterInvariant.

Variables (v : list vec3) (f : list face).
Hypothesis faces_ok : Forall (face_ok (length v)) f.
Hypothesis faces_present : f <> [].

(** What is known of a draw, and what follows for the light it makes. *)
Variable D : light_draw -> Prop.
Variable Q : face -> light -> Prop.
Hypothesis light_Q :
  forall d fc p,
    D d -> face_ok (length v) fc ->
    sample_point_on_quad v (fst fc) (d_u d) (d_v d) = Some p ->
    Q fc (p, if Rlt_dec (d_coin d) (1 / 10)
             then uniform 3 8 (d_frac d)
             else uniform (15 / 100) (25 / 10) (d_frac d), d_color d).

Lemma scatter_fold_invariant (draws : list light_draw) :
  Forall D draws ->
  forall fl0 : list (list light),
    length fl0 = length f ->
    (forall k fc ll l, nth_error f k = Some fc -> nth_error fl0 k = Some ll ->
                       In l ll -> Q fc l) ->
    exists fl,
      fold_left (scatter_step v f) draws (Some fl0) = Some fl /\
      length fl = length f /\
      length (concat fl) = (length (concat fl0) + length draws)%nat /\
      (forall k fc ll l, nth_error f k = Some fc -> nth_error fl k = Some ll ->
                         In l ll -> Q fc l).
Proof.
  induction 1 as [|d draws Hd _ IH]; intros fl0 Hlen HQ.
  - exists fl0. cbn [fold_left length]. repeat split; try assumption. lia.
  - cbn [fold_left].
    assert (Hpick : (d_pick d mod length f < length f)%nat).
    { apply Nat.mod_upper_bound. clear - faces_present.
      destruct f; [contradiction | discriminate]. }
    destruct (nth_error f (d_pick d mod length f)) as [fc|] eqn:Hfc;
      [| apply nth_error_None in Hfc; lia].
    assert (Hok : face_ok (length v) fc).
    { apply (proj1 (Forall_forall _ _) faces_ok). eapply nth_error_In. exact Hfc. }
    destruct (sample_point_on_quad_some v fc (d_u d) (d_v d) Hok) as [p Hp].
    pose proof (light_Q d fc p Hd Hok Hp) as HQl.
    unfold scatter_step at 2. cbn [bind]. rewrite Hfc. cbn [bind].
    unfold generate_lights_for_face. cbn [mapM]. rewrite Hp. cbn [bind].
    match goal with
    | |- context [extend_at fl0 ?i ?extra] =>
        destruct (extend_at_some fl0 i extra) as [fl1 [Hext Hlen1]]; [lia|];
        rewrite Hext;
        destruct (extend_at_spec fl0 i extra fl1 Hext) as [_ [Hcount Hnth]]
    end.
    destruct (IH fl1) as [fl [Hfold [Hl [Hc HQ']]]].
    + lia.
    + intros k fc' ll' l Hk Hll Hin.
      destruct (Hnth k ll' Hll) as [ll [H1 [[H2 ->] | [-> ->]]]].
      * exact (HQ k fc' ll l Hk H1 Hin).
      * apply in_app_or in Hin. destruct Hin as [Hin | [<- | []]].
        -- exact (HQ _ fc' ll l Hk H1 Hin).
        -- rewrite Hfc in Hk. injection Hk as <-. exact HQl.
    + exists fl. split; [exact Hfold|]. split; [exact Hl|]. split; [|exact HQ'].
      rewrite Hc, Hcount. cbn [length]. lia.
Qed.

End ScatterInvariant.

Lemma light_size_band (coin frac : R) :
  0 <= frac < 1 ->
  let size := if Rlt_dec coin (1 / 10) then uniform 3 8 frac
              else uniform (15 / 100) (25 / 10) frac in
  (coin < 1 / 10 -> 3 <= size < 8) /\
  (~ coin < 1 / 10 -> 15 / 100 <= size < 25 / 10).
Proof.
  intros Hf size. unfold size, uniform.
  destruct (Rlt_dec coin (1 / 10)); split; intros; try tauto; lra.
Qed.

(** X12: scattering over quad faces with valid indices returns one light
    list per face; when the segment has a face the lists hold one light per
    draw in total, and with draws in [[0, 1)] every light stored under face
    [k] is a convex combination of the corners of face [k], of size in
    [[0.15, 2.5)] or in [[3, 8)].  Without faces no light is placed. *)
Theorem scatter_lights_on_their_faces (v : list vec3) (f : list face)
    (draws : list light_draw) :
  Forall (face_ok (length v)) f ->
  Forall draw_in_range draws ->
  exists face_lights,
    scatter_lights v f draws = Some face_lights /\
    length face_lights = length f /\
    length (concat face_lights)
    = match f with [] => 0%nat | _ => length draws end /\
    forall k fc ll l,
      nth_error f k = Some fc -> nth_error face_lights k = Some ll ->
      In l ll -> light_on_face v fc l /\ light_size_in_band l.
Proof.
  intros Hok Hdraws. unfold scatter_lights.
  destruct f as [|fc0 f'] eqn:Ef.
  - exists []. cbn. split; [reflexivity|]. split; [reflexivity|].
    split; [reflexivity|]. intros [|k] fc ll l H; discriminate.
  - rewrite <- Ef in *.
    replace ((0 <? length f) && (0 <? LIGHTS_PER_SEGMENT))%nat with true
      by (rewrite Ef; reflexivity).
    assert (Hne : f <> []) by (rewrite Ef; discriminate).
    destruct (scatter_fold_invariant v f Hok Hne draw_in_range
                (fun fc l => light_on_face v fc l /\ light_size_in_band l))
      with (draws := draws) (fl0 := map (fun _ : face => @nil light) f)
      as [fl [Hfold [Hlen [Hcount HQ]]]].
    + intros d fc p [Hu [Hv Hfrac]] Hfc Hp. split.
      * apply (sample_point_on_quad_on_face v fc (d_u d) (d_v d));
          try assumption; lra.
      * unfold light_size_in_band. cbn [fst snd].
        destruct (light_size_band (d_coin d) (d_frac d) Hfrac) as [Hbig Hsmall].
        destruct (Rlt_dec (d_coin d) (1 / 10)); [right | left]; tauto.
    + exact Hdraws.
    + apply length_map.
    + intros k fc ll l _ Hll Hin. rewrite nth_error_map in Hll.
      destruct (nth_error f k); [|discriminate].
      injection Hll as <-. contradiction.
    + exists fl. split; [exact Hfold|]. split; [exact Hlen|].
      split; [|exact HQ].
      rewrite Hcount. clear. induction f; [reflexivity | assumption].
Qed.

Lemma scatter_lights_on_their_faces_witness :
  let v := [mkVec 0 0 0; mkVec 1 0 0; mkVec 1 1 0; mkVec 0 1 0] in
  let f := [([0; 1; 2; 3]%Z, [true; true; true; true])] in
  exists face_lights,
    scatter_lights v f [default_draw; default_draw] = Some face_lights /\
    length face_lights = 1%nat /\
    length (concat face_lights) = 2%nat.
Proof.
  intros v f.
  destruct (scatter_lights_on_their_faces v f [default_draw; default_draw])
    as [fl [H1 [H2 [H3 _]]]].
  - repeat constructor; cbn; lia.
  - repeat constructor; cbn; lra.
  - exists fl. repeat split; assumption.
Defined.

(** ** The light queue of [main] *)

Lemma build_segment_lights (rng : nat -> nat -> light_draw) (i : nat) :
  exists s,
    build_segment rng i = Some s /\
    segment_ok s /\
    length (concat (snd s)) = LIGHTS_PER_SEGMENT.
Proof.
  unfold build_segment.
  destruct (make_curved_beveled_segment_ok
              (ARC_START + ARC_SPAN / INR N_SEGMENTS * (INR i + 5 / 10))
              ANGLE_SPAN R_INNER R_OUTER SEG_HEIGHT SUBDIVISIONS BEVEL_SIZE)
    as [verts [faces [-> [Hv [Hf Hok]]]]]; [unfold SUBDIVISIONS; lia|].
  cbn [bind]. unfold scatter_lights.
  assert (Hne : faces <> []) by (intros ->; simpl in Hf; lia).
  replace ((0 <? length faces) && (0 <? LIGHTS_PER_SEGMENT))%nat with true
    by (rewrite Hf; reflexivity).
  destruct (scatter_fold_invariant verts faces Hok Hne
              (fun _ => True) (fun _ _ => True))
      with (draws := map (rng i) (seq 0 LIGHTS_PER_SEGMENT))
           (fl0 := map (fun _ : face => @nil light) faces)
    as [fl [Hfold [Hlen [Hcount _]]]].
  - trivial.
  - apply Forall_forall. trivial.
  - apply length_map.
  - trivial.
  - rewrite Hfold. cbn [bind]. eexists. split; [reflexivity|]. split.
    + split; [|split; assumption]. intros ->. simpl in Hv. lia.
    + cbn [snd]. rewrite Hcount, length_map, length_seq.
      replace (length (concat (map (fun _ : face => @nil light) faces)))
        with 0%nat; [reflexivity|].
      clear. induction faces; [reflexivity | assumption].
Qed.

(** X13: in every frame of [main] the light queue holds every light of the
    scene exactly once, in scene order, each at the projection of its rotated
    sample point and with its own size and colour: 12 x 200 = 2400 entries,
    whatever the number of faces in front of a light. *)
Theorem light_queue_of_frame
    (rng : nat -> nat -> light_draw) (frame : nat) (view_yaw view_pitch : R) :
  let mat := frame_matrix frame view_yaw view_pitch in
  exists segments sorted q,
    build_segments rng = Some segments /\
    render_frame mat segments = Some (sorted, q) /\
    q = map (project_light mat) (scene_lights segments) /\
    length q = 2400%nat.
Proof.
  intros mat.
  destruct (mapM_some (build_segment rng)
              (fun s => segment_ok s /\
                        length (concat (snd s)) = LIGHTS_PER_SEGMENT)
              (seq 0 N_SEGMENTS) (build_segment_lights rng))
    as [segments [Hb [HP Hlen]]].
  rewrite length_seq in Hlen.
  assert (Hok : Forall segment_ok segments)
    by (eapply Forall_impl; [|exact HP]; intros s Hs; apply Hs).
  destruct (loop_segments_queue mat segments Hok ([], [])) as [rl Hloop].
  cbn [fst snd app] in Hloop.
  exists segments, (sort_by_depth rl), (map (project_light mat) (scene_lights segments)).
  split; [exact Hb|]. split; [|split; [reflexivity|]].
  - unfold render_frame, build_render_list. rewrite Hloop. reflexivity.
  - rewrite length_map. unfold scene_lights.
    rewrite (length_flat_map_Forall _ LIGHTS_PER_SEGMENT).
    + rewrite Hlen. reflexivity.
    + eapply Forall_impl; [|exact HP]. intros s Hs. apply Hs.
Qed.

(** ** The radius of a light *)

Lemma py_int_bounds (x : R) (a b : Z) :
  (0 <= a)%Z -> IZR a <= x < IZR b -> (a <= py_int x < b)%Z.
Proof.
  intros Ha [Hlo Hhi]. unfold py_int.
  assert (H0 : 0 <= x) by (apply IZR_le in Ha; lra).
  destruct (Rle_dec 0 x); [|contradiction].
  pose proof (Zfloor_bound x) as [Hf1 Hf2]. split.
  - apply Zfloor_lub. exact Hlo.
  - apply lt_IZR. lra.
Qed.

(** X14: every light is drawn with a radius of at least one pixel; a light
    of the small band (size below 2.5) gets radius 1 or 2, a light of the
    large band (size from 3 up to 8) a radius from 3 to 7. *)
Theorem light_circle_radius (mat : mat3) (l : light) :
  exists center r,
    paint_light (project_light mat l) = DrawCircle (snd l) center r /\
    (1 <= r)%Z /\
    (15 / 100 <= snd (fst l) < 25 / 10 -> (r <= 2)%Z) /\
    (3 <= snd (fst l) < 8 -> (3 <= r <= 7)%Z).
Proof.
  destruct l as [[p size] col]. cbn [fst snd].
  unfold paint_light, project_light. cbn [fst snd].
  do 2 eexists. split; [reflexivity|]. split; [lia|]. split.
  - intros [Hlo Hhi].
    assert (H : (0 <= py_int size < 3)%Z) by (apply py_int_bounds; [lia | lra]).
    lia.
  - intros [Hlo Hhi].
    assert (H : (3 <= py_int size < 8)%Z) by (apply py_int_bounds; [lia | lra]).
    lia.
Qed.

Lemma light_circle_radius_witness :
  exists center r,
    paint_light (project_light identity3 (mkVec 0 0 0, 7 / 2, (100, 0, 0)%Z))
    = DrawCircle (100, 0, 0)%Z center r /\ (3 <= r <= 7)%Z.
Proof.
  destruct (light_circle_radius identity3 (mkVec 0 0 0, 7 / 2, (100, 0, 0)%Z))
    as [center [r [H [_ [_ Hbig]]]]].
  exists center, r. split; [exact H|]. apply Hbig. cbn [fst snd]. lra.
Defined.

(** ** The translucent layer of a polygon *)

Lemma fold_left_Rmin_le (l : list R) :
  forall a, fold_left Rmin l a <= a /\
            forall x, In x l -> fold_left Rmin l a <= x.
Proof.
  induction l as [|y l IH]; intros a; cbn [fold_left].
  - split; [lra | intros x []].
  - destruct (IH (Rmin a y)) as [H1 H2].
    pose proof (Rmin_l a y). pose proof (Rmin_r a y). split; [lra|].
    intros x [<- | Hx]; [lra | apply H2; exact Hx].
Qed.

Lemma fold_left_Rmax_ge (l : list R) :
  forall a, a <= fold_left Rmax l a /\
            forall x, In x l -> x <= fold_left Rmax l a.
Proof.
  induction l as [|y l IH]; intros a; cbn [fold_left].
  - split; [lra | intros x []].
  - destruct (IH (Rmax a y)) as [H1 H2].
    pose proof (Rmax_l a y). pose proof (Rmax_r a y). split; [lra|].
    intros x [<- | Hx]; [lra | apply H2; exact Hx].
Qed.

Lemma list_min_le (l : list R) (x : R) : In x l -> list_min l <= x.
Proof.
  unfold list_min. destruct l as [|a l]; [intros []|]. cbn [hd tl].
  destruct (fold_left_Rmin_le l a) as [H1 H2].
  intros [<- | Hx]; [exact H1 | apply H2; exact Hx].
Qed.

Lemma list_max_ge (l : list R) (x : R) : In x l -> x <= list_max l.
Proof.
  unfold list_max. destruct l as [|a l]; [intros []|]. cbn [hd tl].
  destruct (fold_left_Rmax_ge l a) as [H1 H2].
  intros [<- | Hx]; [exact H1 | apply H2; exact Hx].
Qed.

(** A coordinate moved into the layer: at least 2 from its low side, more
    than 1 from its high side. *)
Lemma layer_coordinate (lo hi x : R) :
  lo <= x <= hi ->
  2 <= x - IZR (Zfloor lo - 2)
  < IZR (Z.max 1 (Zceil (hi - lo) + 4)) - 1.
Proof.
  intros [Hlo Hhi].
  pose proof (Zfloor_bound lo) as [Hf1 Hf2].
  pose proof (Zceil_bound (hi - lo)) as [_ Hc].
  assert (Hw : IZR (Zceil (hi - lo) + 4) <= IZR (Z.max 1 (Zceil (hi - lo) + 4)))
    by (apply IZR_le; lia).
  rewrite plus_IZR in Hw. rewrite minus_IZR. lra.
Qed.

Lemma draw_translucent_polygon_layer (points : list (R * R)) (color : rgba) :
  (3 <= length points)%nat ->
  exists b, draw_translucent_polygon points color = [b] /\ blit_color b = color.
Proof.
  intros Hlen. unfold draw_translucent_polygon.
  destruct (Nat.ltb_spec (length points) 3); [lia|].
  eexists. split; reflexivity.
Qed.

(** X15: with fewer than three points nothing is drawn; otherwise exactly
    one layer is composited, in the given colour, and every point of the
    polygon, moved by the layer's offset, lies inside the layer with a margin:
    at least 2 pixels from its left and top sides and more than 1 pixel from
    its right and bottom sides.  Moving the layer's points back by the offset
    gives the polygon. *)
Theorem polygon_fits_its_layer (points : list (R * R)) (color : rgba) :
  ((length points < 3)%nat -> draw_translucent_polygon points color = []) /\
  ((3 <= length points)%nat ->
   exists b,
     draw_translucent_polygon points color = [b] /\
     blit_color b = color /\
     blit_points b
     = map (fun p => (fst p - IZR (fst (blit_at b)),
                      snd p - IZR (snd (blit_at b)))) points /\
     map (fun q => (fst q + IZR (fst (blit_at b)),
                    snd q + IZR (snd (blit_at b)))) (blit_points b) = points /\
     Forall (fun q => 2 <= fst q < IZR (blit_width b) - 1 /\
                      2 <= snd q < IZR (blit_height b) - 1) (blit_points b)).
Proof.
  unfold draw_translucent_polygon. split; intros Hlen.
  - destruct (Nat.ltb_spec (length points) 3); [reflexivity | lia].
  - destruct (Nat.ltb_spec (length points) 3); [lia|].
    eexists. split; [reflexivity|]. cbn [blit_color blit_points blit_at
                                          blit_width blit_height fst snd].
    split; [reflexivity|]. split; [reflexivity|]. split.
    + rewrite map_map.
      rewrite map_ext with (g := fun p : R * R => p); [apply map_id|].
      intros [x y]. cbn [fst snd]. f_equal; ring.
    + apply Forall_map, Forall_forall. intros [x y] Hp. cbn [fst snd].
      assert (Hx : In x (map fst points))
        by (apply in_map_iff; exists (x, y); tauto).
      assert (Hy : In y (map snd points))
        by (apply in_map_iff; exists (x, y); tauto).
      split; apply layer_coordinate; split;
        auto using list_min_le, list_max_ge.
Qed.

Lemma polygon_fits_its_layer_witness :
  exists b,
    draw_translucent_polygon [(0, 0); (10, 0); (0, 10)] FACE_FILL_FRONT = [b] /\
    blit_color b = FACE_FILL_FRONT /\
    Forall (fun q => 2 <= fst q < IZR (blit_width b) - 1 /\
                     2 <= snd q < IZR (blit_height b) - 1) (blit_points b).
Proof.
  destruct (proj2 (polygon_fits_its_layer [(0, 0); (10, 0); (0, 10)]
                     FACE_FILL_FRONT))
    as [b [H1 [H2 [_ [_ H5]]]]].
  - simpl. lia.
  - exists b. repeat split; assumption.
Defined.

(** ** Painting a face item *)

(** X16: painting a quad item with four flags issues one translucent layer
    in the fill colour of its side, then one line per set flag, in the edge
    colour of the item and of width 1. *)
Theorem paint_item_of_quad (it : RenderItem) :
  length (item_points it) = 4%nat ->
  length (item_edge_flags it) = 4%nat ->
  exists b lines,
    paint_item it = DrawPolygon b :: lines /\
    blit_color b = (if is_back it then FACE_FILL_BACK else FACE_FILL_FRONT) /\
    length lines = count_occ bool_dec (item_edge_flags it) true /\
    Forall (fun c => exists p q, c = DrawLine (item_edge_color it) p q 1) lines.
Proof.
  intros Hp Hf. unfold paint_item. destruct (item_kind it).
  destruct (draw_translucent_polygon_layer (item_points it)
              (if is_back it then FACE_FILL_BACK else FACE_FILL_FRONT))
    as [b [Hb Hcol]]; [lia|].
  rewrite Hb. cbn [map app]. do 2 eexists.
  split; [reflexivity|]. split; [exact Hcol|]. split.
  - rewrite length_map.
    destruct (item_points it) as [|p0 [|p1 [|p2 [|p3 [|? ?]]]]];
      try discriminate.
    destruct (item_edge_flags it) as [|f0 [|f1 [|f2 [|f3 [|? ?]]]]];
      try discriminate.
    destruct f0, f1, f2, f3; reflexivity.
  - apply Forall_map, Forall_forall. intros e _. eauto.
Qed.

Lemma paint_item_of_quad_witness :
  let it := mkItem 0 ItemFace [(0, 0); (1, 0); (1, 1); (0, 1)] FACE_EDGE_FRONT
                   [true; false; true; false] [] false in
  exists b lines,
    paint_item it = DrawPolygon b :: lines /\
    blit_color b = FACE_FILL_FRONT /\
    length lines = 2%nat.
Proof.
  intros it.
  destruct (paint_item_of_quad it) as [b [lines [H1 [H2 [H3 _]]]]];
    [reflexivity | reflexivity |].
  exists b, lines. repeat split; assumption.
Defined.

(** ** Mouse and keyboard *)

Lemma handle_motions_dragging (ps : list (Z * Z)) :
  forall st, dragging st = true ->
    handle_events st (map MouseMotion ps)
    = mkView (running st) true (last ps (last_mouse_pos st))
             (view_yaw st
              + IZR (fst (last ps (last_mouse_pos st)) - fst (last_mouse_pos st))
                * (5 / 1000))
             (view_pitch st
              + IZR (snd (last ps (last_mouse_pos st)) - snd (last_mouse_pos st))
                * (5 / 1000)).
Proof.
  unfold handle_events.
  induction ps as [|p ps IH]; intros st Hd.
  - cbn [map fold_left last]. rewrite !Z.sub_diag.
    destruct st as [r d l y pt]. cbn in *. subst d. f_equal; lra.
  - cbn [map fold_left].
    assert (Hstep : handle_event st (MouseMotion p)
                    = mkView (running st) true p
                        (view_yaw st
                         + IZR (fst p - fst (last_mouse_pos st)) * (5 / 1000))
                        (view_pitch st
                         + IZR (snd p - snd (last_mouse_pos st)) * (5 / 1000)))
      by (cbn [handle_event]; rewrite Hd; reflexivity).
    rewrite Hstep, IH by reflexivity.
    cbn [running dragging last_mouse_pos view_yaw view_pitch].
    assert (Hlast : last (p :: ps) (last_mouse_pos st) = last ps p).
    { clear. revert p. induction ps as [|q ps IH]; intros p; [reflexivity|].
      cbn [last] in *. destruct ps; [reflexivity | apply IH]. }
    rewrite Hlast. f_equal; rewrite !minus_IZR; ring.
Qed.

(** X17: a drag is path independent: after a left press at [p0], any
    sequence of mouse moves and the release, the yaw has changed by 0.005
    times the horizontal distance between [p0] and the last position, the
    pitch by 0.005 times the vertical one, however the pointer got there. *)
Theorem drag_is_path_independent (st : view_state) (p0 : Z * Z)
    (ps : list (Z * Z)) :
  let p_end := last ps p0 in
  handle_events st (MouseButtonDown 1 p0 :: map MouseMotion ps ++ [MouseButtonUp 1])
  = mkView (running st) false p_end
           (view_yaw st + IZR (fst p_end - fst p0) * (5 / 1000))
           (view_pitch st + IZR (snd p_end - snd p0) * (5 / 1000)).
Proof.
  intros p_end. unfold handle_events. cbn [fold_left].
  rewrite fold_left_app.
  assert (Hdown : handle_event st (MouseButtonDown 1 p0)
                  = mkView (running st) true p0 (view_yaw st) (view_pitch st))
    by reflexivity.
  rewrite Hdown.
  pose proof (handle_motions_dragging ps _ (eq_refl :
    dragging (mkView (running st) true p0 (view_yaw st) (view_pitch st)) = true))
    as Hmoves.
  unfold handle_events in Hmoves. rewrite Hmoves. reflexivity.
Qed.

Lemma handle_event_idle (st : view_state) (ev : event) :
  dragging st = false ->
  (forall pos, ev <> MouseButtonDown 1 pos) ->
  dragging (handle_event st ev) = false /\
  view_yaw (handle_event st ev) = view_yaw st /\
  view_pitch (handle_event st ev) = view_pitch st.
Proof.
  intros Hd Hev. destruct ev as [|key|button pos|button|pos|]; cbn [handle_event].
  - auto.
  - destruct (key =? K_ESCAPE)%Z; auto.
  - destruct (Z.eqb_spec button 1) as [-> | _]; [|auto].
    exfalso. apply (Hev pos). reflexivity.
  - destruct (button =? 1)%Z; auto.
  - rewrite Hd. auto.
  - auto.
Qed.

(** X18: the view turns only during a drag: from a state that is not
    dragging, events other than a left button press leave yaw and pitch as
    they are, whatever the pointer does. *)
Theorem view_fixed_without_drag (st : view_state) (events : list event) :
  dragging st = false ->
  (forall ev pos, In ev events -> ev <> MouseButtonDown 1 pos) ->
  view_yaw (handle_events st events) = view_yaw st /\
  view_pitch (handle_events st events) = view_pitch st /\
  dragging (handle_events st events) = false.
Proof.
  unfold handle_events. revert st.
  induction events as [|ev events IH]; intros st Hd Hev; cbn [fold_left].
  - auto.
  - destruct (handle_event_idle st ev Hd) as [Hd' [Hy Hp]].
    { intros pos. apply Hev. left. reflexivity. }
    destruct (IH (handle_event st ev) Hd') as [H1 [H2 H3]].
    { intros ev' pos Hin. apply Hev. right. exact Hin. }
    rewrite H1, H2, Hy, Hp. auto.
Qed.

Lemma view_fixed_without_drag_witness :
  let events := [MouseMotion (10, 20)%Z; MouseButtonDown 3 (5, 5)%Z;
                 KeyDown 32; MouseMotion (300, 40)%Z; MouseButtonUp 1] in
  view_yaw (handle_events initial_view events) = INITIAL_YAW /\
  view_pitch (handle_events initial_view events) = TILT.
Proof.
  intros events.
  destruct (view_fixed_without_drag initial_view events) as [H1 [H2 _]].
  - reflexivity.
  - intros ev pos Hin. cbn [events In] in Hin.
    destruct Hin as [<- | [<- | [<- | [<- | [<- | []]]]]]; discriminate.
  - split; assumption.
Defined.

Lemma handle_event_running (st : view_state) (ev : event) :
  (running st = false -> running (handle_event st ev) = false) /\
  (ev = Quit \/ ev = KeyDown K_ESCAPE -> running (handle_event st ev) = false).
Proof.
  split.
  - intros Hr. destruct ev as [|key|button pos|button|pos|]; cbn [handle_event];
      try exact Hr; try reflexivity.
    + destruct (key =? K_ESCAPE)%Z; [reflexivity | exact Hr].
    + destruct (button =? 1)%Z; exact Hr.
    + destruct (button =? 1)%Z; exact Hr.
    + destruct (dragging st); exact Hr.
  - intros [-> | ->]; reflexivity.
Qed.

(** X19: a quit request is never lost: if the batch of events holds a QUIT
    or an Escape key press, or the loop was already stopping, [running] is
    false after the batch, whatever follows the request in the batch. *)
Theorem quit_request_is_kept (st : view_state) (events : list event) :
  running st = false \/ In Quit events \/ In (KeyDown K_ESCAPE) events ->
  running (handle_events st events) = false.
Proof.
  unfold handle_events. revert st.
  induction events as [|ev events IH]; intros st H; cbn [fold_left].
  - destruct H as [H | [[] | []]]. exact H.
  - apply IH.
    destruct (handle_event_running st ev) as [Hkeep Hquit].
    destruct H as [H | [[H | H] | [H | H]]]; auto.
Qed.

Lemma quit_request_is_kept_witness :
  running (handle_events initial_view
             [MouseMotion (1, 2)%Z; KeyDown 27; MouseButtonDown 1 (3, 4)%Z])
  = false.
Proof.
  apply quit_request_is_kept. right. right. cbn [In]. right. left. reflexivity.
Defined.

(** ** Background stars *)

Lemma randint_range (a b : Z) (raw : nat) :
  (a <= b)%Z -> (a <= randint a b raw <= b)%Z.
Proof.
  intros H. unfold randint.
  pose proof (Z.mod_pos_bound (Z.of_nat raw) (b - a + 1)). lia.
Qed.

(** X20: on a surface of non-negative width and height, with draws in
    range, [generate_bg_stars] returns [count] stars, each within
    [[0, width] x [0, height]] (the far sides included), of size in
    [[0.5, 2)], brightness in [[100, 255]] and colour channels in
    [[0, 255]]. *)
Theorem generate_bg_stars_in_range (rng : nat -> star_draw)
    (width height : Z) (count : nat) :
  (0 <= width)%Z -> (0 <= height)%Z ->
  (forall k, star_draw_in_range (rng k)) ->
  length (generate_bg_stars rng width height count) = count /\
  Forall (star_ok width height) (generate_bg_stars rng width height count).
Proof.
  intros Hw Hh Hrng. unfold generate_bg_stars. split.
  - rewrite length_map, length_seq. reflexivity.
  - apply Forall_map, Forall_forall. intros k _.
    specialize (Hrng k). unfold star_draw_in_range in Hrng.
    destruct (sd_rgb (rng k)) as [[r g] b].
    destruct Hrng as [Hr [Hg [Hb Hf]]].
    unfold star_ok, color_in_range, uniform.
    cbn [star_x star_y star_size star_brightness star_color].
    pose proof (randint_range 0 width (sd_x (rng k)) Hw).
    pose proof (randint_range 0 height (sd_y (rng k)) Hh).
    pose proof (randint_range 100 255 (sd_brightness (rng k)) ltac:(lia)).
    assert (Hc : forall x, 0 <= x <= 1 -> (0 <= py_int (x * 255) <= 255)%Z).
    { intros x Hx.
      assert (H' : (0 <= py_int (x * 255) < 256)%Z)
        by (apply py_int_bounds; [lia | lra]).
      lia. }
    repeat split; try lia; try lra; apply Hc; assumption.
Qed.

Lemma generate_bg_stars_in_range_witness :
  let rng := fun _ : nat => mkStarDraw (1, 0, 1 / 2) 7 9 (1 / 2) 30 in
  length (generate_bg_stars rng 1200 900 600) = 600%nat /\
  Forall (star_ok 1200 900) (generate_bg_stars rng 1200 900 600).
Proof.
  intros rng. apply generate_bg_stars_in_range.
  - lia.
  - lia.
  - intros k. unfold star_draw_in_range, rng. cbn [sd_rgb sd_frac]. lra.
Defined.

Lemma twinkle_keeps (width height : Z) (s : star) (d : R * nat) :
  star_ok width height s ->
  star_ok width height (twinkle s d) /\
  star_x (twinkle s d) = star_x s /\ star_y (twinkle s d) = star_y s /\
  star_size (twinkle s d) = star_size s /\
  star_color (twinkle s d) = star_color s.
Proof.
  intros [Hx [Hy [Hs [Hb Hc]]]]. unfold twinkle.
  destruct (Rlt_dec (fst d) (2 / 100)).
  - pose proof (randint_range 100 255 (snd d) ltac:(lia)).
    unfold star_ok. cbn [star_x star_y star_size star_brightness star_color].
    tauto.
  - unfold star_ok. tauto.
Qed.

Lemma star_circle_dimmed (width height : Z) (s : star) :
  star_ok width height s ->
  color_dimmed (star_color s) (fst (fst (star_circle s))) /\
  snd (fst (star_circle s)) = (star_x s, star_y s) /\
  snd (star_circle s) = star_size s.
Proof.
  intros [_ [_ [_ [Hb Hc]]]]. unfold star_circle, color_in_range in *.
  destruct (star_color s) as [[c0 c1] c2]. cbn [fst snd].
  split; [|split; reflexivity].
  assert (Hk : forall c : Z, (0 <= c <= 255)%Z ->
             (0 <= py_int (IZR c * (IZR (star_brightness s) / 255)) <= c)%Z).
  { intros c Hc0.
    assert (Hb1 : 100 <= IZR (star_brightness s) <= 255)
      by (split; apply IZR_le; lia).
    assert (Hc1 : 0 <= IZR c) by (apply IZR_le; lia).
    assert (H' : (0 <= py_int (IZR c * (IZR (star_brightness s) / 255)) < c + 1)%Z).
    { apply py_int_bounds; [lia|]. rewrite plus_IZR. split; nra. }
    lia. }
  unfold color_dimmed. repeat split; apply Hk; tauto.
Qed.

Lemma stars_frame_from (rng : nat -> R * nat) (width height : Z)
    (stars : list star) :
  Forall (star_ok width height) stars ->
  forall a,
    let stars' := map (fun ks => twinkle (snd ks) (rng (fst ks)))
                      (combine (seq a (length stars)) stars) in
    Forall (star_ok width height) stars' /\
    Forall2 (fun s s' => star_x s' = star_x s /\ star_y s' = star_y s /\
                         star_size s' = star_size s /\
                         star_color s' = star_color s) stars stars'.
Proof.
  induction 1 as [|s stars Hs _ IH]; intros a; cbn.
  - split; constructor.
  - destruct (IH (S a)) as [H1 H2].
    destruct (twinkle_keeps width height s (rng a) Hs) as [Hok Hsame].
    split; constructor; assumption.
Qed.

(** X21: a frame of twinkling keeps every star where it is, with its size
    and colour, and its brightness within [[100, 255]]; the circle drawn for
    a star sits at the star's position, has its size as radius, and each of
    its colour channels lies between 0 and the star's own channel, so the
    drawn colour is a valid one. *)
Theorem stars_frame_keeps_stars (rng : nat -> R * nat) (width height : Z)
    (stars : list star) :
  Forall (star_ok width height) stars ->
  let (stars', circles) := stars_frame rng stars in
  Forall (star_ok width height) stars' /\
  Forall2 (fun s s' => star_x s' = star_x s /\ star_y s' = star_y s /\
                       star_size s' = star_size s /\
                       star_color s' = star_color s) stars stars' /\
  Forall2 (fun s' c => color_dimmed (star_color s') (fst (fst c)) /\
                       snd (fst c) = (star_x s', star_y s') /\
                       snd c = star_size s') stars' circles.
Proof.
  intros Hok. unfold stars_frame.
  destruct (stars_frame_from rng width height stars Hok 0) as [H1 H2].
  split; [exact H1|]. split; [exact H2|].
  revert H1. generalize (map (fun ks => twinkle (snd ks) (rng (fst ks)))
                             (combine (seq 0 (length stars)) stars)).
  induction 1 as [|s' l Hs' _ IH]; cbn [map]; constructor.
  - apply (star_circle_dimmed width height). exact Hs'.
  - exact IH.
Qed.

Lemma stars_frame_keeps_stars_witness :
  let s := mkStar 10 20 1 200 (255, 0, 128)%Z in
  let (stars', circles) := stars_frame (fun _ => (0, 5%nat)) [s] in
  Forall (star_ok 1200 900) stars' /\
  Forall2 (fun s' c => color_dimmed (star_color s') (fst (fst c)) /\
                       snd (fst c) = (star_x s', star_y s') /\
                       snd c = star_size s') stars' circles.
Proof.
  intros s.
  pose proof (stars_frame_keeps_stars (fun _ => (0, 5%nat)) 1200 900 [s]) as H.
  destruct (stars_frame (fun _ => (0, 5%nat)) [s]) as [stars' circles].
  destruct H as [H1 [_ H3]].
  - constructor; [|constructor].
    unfold star_ok, color_in_range, s.
    cbn [star_x star_y star_size star_brightness star_color].
    repeat split; try lia; lra.
  - split; assumption.
Defined.

(** ** Malformed segments in the frame loop *)


Lemma py_index_all_true (pts : list vec3) (idx : Z) :
  py_index (all_true pts) idx = None \/ py_index (all_true pts) idx = Some true.
Proof.
  unfold all_true. rewrite py_index_map.
  destruct (py_index pts idx); [right | left]; reflexivity.
Qed.


Lemma all_visible_all_true (pts : list vec3) (idxs : list Z) :
  all_visible (all_true pts) idxs = None \/
  all_visible (all_true pts) idxs = Some true.
Proof.
  induction idxs as [|idx idxs IH]; cbn [all_visible]; [right; reflexivity|].
  destruct (py_index_all_true pts idx) as [-> | ->]; [left; reflexivity|].
  cbn [bind]. exact IH.
Qed.





(** ** The ring stays on the surface *)

Lemma dot_rotated_self (yaw pitch spin : R) (p : vec3) :
  let q := vec_matmul p (transpose (compose_rotation yaw pitch spin)) in
  vx q * vx q + vy q * vy q + vz q * vz q
  = vx p * vx p + vy p * vy p + vz p * vz p.
Proof.
  intros q.
  pose proof (dot_vec_matmul_transpose p p (compose_rotation yaw pitch spin)) as H.
  rewrite compose_rotation_left_inverse, vec_matmul_identity3 in H.
  exact H.
Qed.

(** X23: whatever the frame number and the view angles, every vertex of
    the twelve segments of [main] is projected strictly inside the surface:
    its screen x lies between 200 and 1000 (of 1200) and its screen y
    between 50 and 850 (of 900). *)
Theorem ring_stays_on_surface
    (rng : nat -> nat -> light_draw) (frame : nat) (view_yaw view_pitch : R) :
  let mat := frame_matrix frame view_yaw view_pitch in
  exists segments,
    build_segments rng = Some segments /\
    forall verts edges faces lights p,
      In (verts, edges, faces, lights) segments -> In p verts ->
      let q := vec_matmul p (transpose mat) in
      200 < WIDTH / 2 + SCALE * vx q < 1000 /\
      50 < HEIGHT / 2 - SCALE * vy q < 850.
Proof.
  intros mat.
  destruct (mapM_some (build_segment rng)
              (fun s : segment =>
                 forall p, In p (fst (fst (fst s))) ->
                   vx p * vx p + vy p * vy p + vz p * vz p
                   <= R_OUTER * R_OUTER + SEG_HEIGHT / 2 * (SEG_HEIGHT / 2))
              (seq 0 N_SEGMENTS)) as [segments [Hb [HP _]]].
  { intros i. unfold build_segment.
    destruct (make_curved_beveled_segment_ok
                (ARC_START + ARC_SPAN / INR N_SEGMENTS * (INR i + 5 / 10))
                ANGLE_SPAN R_INNER R_OUTER SEG_HEIGHT SUBDIVISIONS BEVEL_SIZE)
      as [verts [faces [Hmk [Hv [Hf Hok]]]]]; [unfold SUBDIVISIONS; lia|].
    rewrite Hmk. cbn [bind].
    destruct (scatter_lights_some verts faces Hok
                (map (rng i) (seq 0 LIGHTS_PER_SEGMENT))) as [fl [-> _]].
    cbn [bind]. eexists. split; [reflexivity|]. cbn [fst].
    intros p Hp.
    destruct (built_vertex_on_rectangle _ _ _ _ _ _ _ _ _ _ p Hmk Hp)
      as [Hr Hz].
    unfold R_INNER, R_OUTER, SEG_HEIGHT in *.
    destruct Hr as [Hr | Hr], Hz as [Hz | Hz]; rewrite Hz; nra. }
  exists segments. split; [exact Hb|].
  intros verts edges faces lights p Hs Hp q.
  pose proof (proj1 (Forall_forall _ _) HP _ Hs p Hp) as Hnorm.
  pose proof (dot_rotated_self view_yaw view_pitch (frame_spin frame) p) as Hrot.
  cbv zeta in Hrot. fold (frame_matrix frame view_yaw view_pitch) in Hrot.
  fold mat in Hrot. fold q in Hrot.
  unfold WIDTH, HEIGHT, SCALE, R_OUTER, SEG_HEIGHT in *.
  assert (Hx : vx q * vx q <= 925 / 16) by nra.
  assert (Hy : vy q * vy q <= 925 / 16) by nra.
  split; split; nra.
Qed.

Lemma ring_stays_on_surface_witness :
  exists segments verts edges faces lights p,
    build_segments (fun _ _ => default_draw) = Some segments /\
    In (verts, edges, faces, lights) segments /\ In p verts /\
    200 < WIDTH / 2
          + SCALE * vx (vec_matmul p (transpose (frame_matrix 0 0 0))) < 1000.
Proof.
  destruct (ring_stays_on_surface (fun _ _ => default_draw) 0 0 0)
    as [segments [Hb Hin]].
  destruct (build_segments_ok (fun _ _ => default_draw))
    as [segments' [Hb' [Hok [Hlen _]]]].
  rewrite Hb in Hb'. injection Hb' as <-.
  destruct segments as [|[[[verts edges] faces] lights] rest]; [discriminate|].
  inversion Hok as [|? ? Hs _]; subst. cbn in Hs. destruct Hs as [Hne _].
  destruct verts as [|p verts]; [contradiction|].
  exists ((p :: verts, edges, faces, lights) :: rest),
         (p :: verts), edges, faces, lights, p.
  split; [exact Hb|]. split; [left; reflexivity|]. split; [left; reflexivity|].
  apply (Hin (p :: verts) edges faces lights p); left; reflexivity.
Defined.

(** ** The lights stay on the surface *)

Lemma py_index_In {A : Type} (l : list A) (idx : Z) (a : A) :
  py_index l idx = Some a -> In a l.
Proof.
  unfold py_index.
  destruct (0 <=? idx)%Z; [apply nth_error_In|].
  destruct (- Z.of_nat (length l) <=? idx)%Z; [apply nth_error_In | discriminate].
Qed.

(** A vertex within distance [sqrt (925 / 16)] of the origin is projected
    inside the surface, whatever the rotation. *)
Lemma rotated_vertex_on_surface (yaw pitch spin : R) (p : vec3) :
  vx p * vx p + vy p * vy p + vz p * vz p <= 925 / 16 ->
  let q := vec_matmul p (transpose (compose_rotation yaw pitch spin)) in
  - 400 < SCALE * vx q < 400 /\ - 400 < SCALE * vy q < 400.
Proof.
  intros Hnorm q.
  pose proof (dot_rotated_self yaw pitch spin p) as Hrot.
  cbv zeta in Hrot. fold q in Hrot. unfold SCALE.
  assert (Hx : vx q * vx q <= 925 / 16) by nra.
  assert (Hy : vy q * vy q <= 925 / 16) by nra.
  split; split; nra.
Qed.

Lemma vec_matmul_combination (m : mat3) (wa wb wc wd : R) (a b c d : vec3) :
  vec_matmul (vadd (vadd (vadd (vscale wa a) (vscale wb b)) (vscale wc c))
                   (vscale wd d)) m
  = vadd (vadd (vadd (vscale wa (vec_matmul a m)) (vscale wb (vec_matmul b m)))
               (vscale wc (vec_matmul c m)))
         (vscale wd (vec_matmul d m)).
Proof.
  destruct a, b, c, d, m as [[? ? ?] [? ? ?] [? ? ?]].
  cbv [vec_matmul vadd vscale dot col0 col1 col2 row0 row1 row2 vx vy vz].
  f_equal; ring.
Qed.

(** A convex combination of four numbers of an open interval is in it. *)
Lemma convex_combination_between (lo hi wa wb wc wd xa xb xc xd : R) :
  0 <= wa -> 0 <= wb -> 0 <= wc -> 0 <= wd -> wa + wb + wc + wd = 1 ->
  lo < xa < hi -> lo < xb < hi -> lo < xc < hi -> lo < xd < hi ->
  lo < wa * xa + wb * xb + wc * xc + wd * xd < hi.
Proof.
  intros Ha Hb Hc Hd Hsum [La Ua] [Lb Ub] [Lc Uc] [Ld Ud].
  assert (Hpos : 0 < wa \/ 0 < wb \/ 0 < wc \/ 0 < wd)
    by (destruct (Rle_lt_dec wa 0), (Rle_lt_dec wb 0), (Rle_lt_dec wc 0),
          (Rle_lt_dec wd 0); try tauto; lra).
  split.
  - replace lo with (wa * lo + wb * lo + wc * lo + wd * lo)
      by (rewrite <- !Rmult_plus_distr_r, Hsum; ring).
    destruct Hpos as [H | [H | [H | H]]]; nra.
  - replace hi with (wa * hi + wb * hi + wc * hi + wd * hi)
      by (rewrite <- !Rmult_plus_distr_r, Hsum; ring).
    destruct Hpos as [H | [H | [H | H]]]; nra.
Qed.

Lemma build_segment_lights_on_faces (rng : nat -> nat -> light_draw) (i : nat) :
  (forall k, draw_in_range (rng i k)) ->
  exists s,
    build_segment rng i = Some s /\
    segment_ok s /\
    (forall p, In p (fst (fst (fst s))) ->
       vx p * vx p + vy p * vy p + vz p * vz p <= 925 / 16) /\
    (forall l, In l (concat (snd s)) ->
       exists fc, light_on_face (fst (fst (fst s))) fc l).
Proof.
  intros Hrng. unfold build_segment.
  destruct (make_curved_beveled_segment_ok
              (ARC_START + ARC_SPAN / INR N_SEGMENTS * (INR i + 5 / 10))
              ANGLE_SPAN R_INNER R_OUTER SEG_HEIGHT SUBDIVISIONS BEVEL_SIZE)
    as [verts [faces [Hmk [Hv [Hf Hok]]]]]; [unfold SUBDIVISIONS; lia|].
  rewrite Hmk. cbn [bind]. unfold scatter_lights.
  assert (Hne : faces <> []) by (intros ->; simpl in Hf; lia).
  replace ((0 <? length faces) && (0 <? LIGHTS_PER_SEGMENT))%nat with true
    by (rewrite Hf; reflexivity).
  destruct (scatter_fold_invariant verts faces Hok Hne draw_in_range
              (fun fc l => light_on_face verts fc l))
      with (draws := map (rng i) (seq 0 LIGHTS_PER_SEGMENT))
           (fl0 := map (fun _ : face => @nil light) faces)
    as [fl [Hfold [Hlen [_ HQ]]]].
  - intros d fc p [Hu [Hv' _]] Hfc Hp.
    apply (sample_point_on_quad_on_face verts fc (d_u d) (d_v d));
      try assumption; lra.
  - apply Forall_map, Forall_forall. intros k _. apply Hrng.
  - apply length_map.
  - intros k fc ll l _ Hll Hin. rewrite nth_error_map in Hll.
    destruct (nth_error faces k); [|discriminate].
    injection Hll as <-. contradiction.
  - rewrite Hfold. cbn [bind]. eexists. split; [reflexivity|]. cbn [fst snd].
    split; [|split].
    + split; [|split; assumption]. intros ->. simpl in Hv. lia.
    + intros p Hp.
      destruct (built_vertex_on_rectangle _ _ _ _ _ _ _ _ _ _ p Hmk Hp)
        as [Hr Hz].
      unfold R_INNER, R_OUTER, SEG_HEIGHT in *.
      destruct Hr as [Hr | Hr], Hz as [Hz | Hz]; rewrite Hz; nra.
    + intros l Hl. apply in_concat in Hl. destruct Hl as [ll [Hll Hin]].
      apply In_nth_error in Hll. destruct Hll as [k Hk].
      destruct (nth_error faces k) as [fc|] eqn:Hfc.
      * exists fc. exact (HQ k fc ll l Hfc Hk Hin).
      * apply nth_error_None in Hfc.
        assert (k < length fl)%nat by (apply nth_error_Some; congruence). lia.
Qed.

(** X25: with draws in [[0, 1)], in every frame of [main], whatever the
    frame number and the view angles, every light of the queue is centred
    strictly inside the surface: screen x between 200 and 1000, screen y
    between 50 and 850. *)
Theorem lights_stay_on_surface
    (rng : nat -> nat -> light_draw) (frame : nat) (view_yaw view_pitch : R) :
  (forall i k, draw_in_range (rng i k)) ->
  let mat := frame_matrix frame view_yaw view_pitch in
  exists segments sorted q,
    build_segments rng = Some segments /\
    render_frame mat segments = Some (sorted, q) /\
    Forall (fun pl : proj_light =>
              200 < fst (fst (fst pl)) < 1000 /\
              50 < snd (fst (fst pl)) < 850) q.
Proof.
  intros Hrng mat.
  destruct (mapM_some (build_segment rng)
              (fun s : segment =>
                 segment_ok s /\
                 (forall p, In p (fst (fst (fst s))) ->
                    vx p * vx p + vy p * vy p + vz p * vz p <= 925 / 16) /\
                 (forall l, In l (concat (snd s)) ->
                    exists fc, light_on_face (fst (fst (fst s))) fc l))
              (seq 0 N_SEGMENTS))
    as [segments [Hb [HP _]]].
  { intros i. apply build_segment_lights_on_faces. apply Hrng. }
  assert (Hok : Forall segment_ok segments)
    by (eapply Forall_impl; [|exact HP]; intros s Hs; apply Hs).
  destruct (loop_segments_queue mat segments Hok ([], [])) as [rl Hloop].
  cbn [fst snd app] in Hloop.
  exists segments, (sort_by_depth rl),
         (map (project_light mat) (scene_lights segments)).
  split; [exact Hb|]. split.
  - unfold render_frame, build_render_list. rewrite Hloop. reflexivity.
  - apply Forall_map, Forall_forall. intros l Hl.
    unfold scene_lights in Hl. apply in_flat_map in Hl.
    destruct Hl as [s [Hs Hl]].
    destruct (proj1 (Forall_forall _ _) HP s Hs) as [_ [Hnorm Hface]].
    destruct (Hface l Hl)
      as [fc [ia [ib [ic [id [a [b [c [d [_ [Ha [Hb' [Hc [Hd Hhull]]]]]]]]]]]]]].
    destruct Hhull as [wa [wb [wc [wd [Hwa [Hwb [Hwc [Hwd [Hsum Hpt]]]]]]]]].
    apply py_index_In in Ha, Hb', Hc, Hd.
    apply Hnorm in Ha, Hb', Hc, Hd.
    pose proof (rotated_vertex_on_surface view_yaw view_pitch (frame_spin frame)
                  a Ha) as [Hax Hay].
    pose proof (rotated_vertex_on_surface view_yaw view_pitch (frame_spin frame)
                  b Hb') as [Hbx Hby].
    pose proof (rotated_vertex_on_surface view_yaw view_pitch (frame_spin frame)
                  c Hc) as [Hcx Hcy].
    pose proof (rotated_vertex_on_surface view_yaw view_pitch (frame_spin frame)
                  d Hd) as [Hdx Hdy].
    cbv zeta in Hax, Hay, Hbx, Hby, Hcx, Hcy, Hdx, Hdy.
    unfold mat, frame_matrix, project_light. cbn [fst snd].
    rewrite Hpt, vec_matmul_combination. cbn [vadd vscale vx vy].
    pose proof (convex_combination_between (- 400) 400 wa wb wc wd
                  _ _ _ _ Hwa Hwb Hwc Hwd Hsum Hax Hbx Hcx Hdx) as Hx.
    pose proof (convex_combination_between (- 400) 400 wa wb wc wd
                  _ _ _ _ Hwa Hwb Hwc Hwd Hsum Hay Hby Hcy Hdy) as Hy.
    unfold WIDTH, HEIGHT, SCALE in *. split; lra.
Qed.

Lemma lights_stay_on_surface_witness :
  exists segments sorted q,
    build_segments (fun _ _ => default_draw) = Some segments /\
    render_frame (frame_matrix 0 0 0) segments = Some (sorted, q) /\
    Forall (fun pl : proj_light =>
              200 < fst (fst (fst pl)) < 1000 /\
              50 < snd (fst (fst pl)) < 850) q.
Proof.
  apply (lights_stay_on_surface (fun _ _ => default_draw) 0 0 0).
  intros i k. unfold draw_in_range, default_draw. cbn [d_u d_v d_frac]. lra.
Defined.
